(** * Resumable streaming chat server: a shallow embedding of [server/router.ts]

    The development follows the server router of the tRPC streaming example:
    the chunk source [completion], the background persister [consumeStream],
    the live relay [convertReadableStreamToAsyncIterable], the resume poller
    [pollMessage], the two streaming procedures [sendMessage] and
    [resumeMessage], and the id generator [generateId] of [shared/utils.ts].

    JavaScript strings are modelled as [string]; the only character the code
    ever inspects is the space (U+0020), which is one byte in every encoding
    of interest.  Message objects live in a heap and the store holds
    references, so that the persister, the store and a poller alias one and
    the same record, as they do in the program.  The asynchronous tasks are
    run by an explicit schedule: each action resumes one task up to its next
    suspension point ([await] or [yield]). *)

From stdpp Require Import list strings.
From Stdlib Require Import Ascii ZArith Lia Sorted.

Local Open Scope Z_scope.
Local Open Scope nat_scope.

(** ** JavaScript string primitives used by the router *)

Module JS.

Definition space : ascii := " "%char.

(** [Boolean(s)] for a string: only the empty string is falsy. *)
Definition truthy (s : string) : bool :=
  match s with
  | EmptyString => false
  | String _ _ => true
  end.

(** [s.split(sep)] for a one-character separator: every occurrence of
    [sep] ends a piece, empty pieces are kept, and the result is never the
    empty array. *)
Fixpoint split (sep : ascii) (s : string) : list string :=
  match s with
  | EmptyString => [EmptyString]
  | String c s' =>
      if Ascii.eqb c sep then EmptyString :: split sep s'
      else match split sep s' with
           | p :: ps => String c p :: ps
           | [] => [String c EmptyString]
           end
  end.

(** [s.substring(from, to)] with [from <= to]. *)
Definition substring (from to : nat) (s : string) : string :=
  String.substring from (to - from) s.

End JS.

(** [content.split(` `).filter(Boolean)]: the chunk-splitting rule shared by
    [pollMessage] (line 123) and [resumeMessage] (line 213). *)
Definition split_words (s : string) : list string :=
  List.filter JS.truthy (JS.split JS.space s).

(** ** Data model *)

Inductive Role := user | assistant.

Inductive Status := streaming | done | error.

Record Message := mkMessage {
  id : string;
  content : string;
  role : Role;
  createdAt : Z;
  status : Status
}.

Record StreamChunk := mkChunk {
  messageId : string;
  chunk_status : Status;
  text : string
}.

Definition set_content (m : Message) (c : string) : Message :=
  mkMessage (id m) c (role m) (createdAt m) (status m).

Definition set_status (m : Message) (st : Status) : Message :=
  mkMessage (id m) (content m) (role m) (createdAt m) st.

Global Instance Status_eq_dec : EqDecision Status.
Proof. solve_decision. Defined.

Global Instance Role_eq_dec : EqDecision Role.
Proof. solve_decision. Defined.

(** ** Readable streams

    A [ReadableStream<string>] delivers finitely many chunks and then either
    closes or errors.  A reader sees it as the sequence of outcomes of
    [reader.read()]. *)

Inductive Ending := Closed | Errored.

Record Stream := mkStream {
  chunks : list string;
  ending : Ending
}.

Inductive ReadResult :=
| Value (word : string)   (* { done: false, value: word } *)
| Done                    (* { done: true } *)
| Failure.                (* the promise rejects *)

Definition end_event (e : Ending) : ReadResult :=
  match e with Closed => Done | Errored => Failure end.

Definition events (s : Stream) : list ReadResult :=
  map Value (chunks s) ++ [end_event (ending s)].

(** ** Chunk source *)

Definition responses : list string :=
  ["This is a very long message that will take a while to stream so we can test the interrupt and resume functionality properly and see if everything works as expected"].

(** [completion()]: [Math.floor(Math.random() * responses.length)] is an
    index below [responses.length]; the drawn index is the argument. *)
Definition completion (pick : nat) : Stream :=
  let response := nth pick responses EmptyString in
  mkStream (JS.split JS.space response) Closed.

(** ** Background persister *)

(** Line 72: [message.content += (message.content ? ` ` : ``) + word]. *)
Definition append_word (m : Message) (word : string) : Message :=
  set_content m
    (content m +:+ (if JS.truthy (content m) then " " else "") +:+ word).

(** The loop of [consumeStream] over the outcomes of [reader.read()]:
    a value is appended, [done] leaves the loop and sets status [done], a
    rejected read lands in the [catch] and sets status [error]. *)
Fixpoint consume (rs : list ReadResult) (m : Message) : Message :=
  match rs with
  | [] => m   (* the next read never settles *)
  | Value word :: rs' => consume rs' (append_word m word)
  | Done :: _ => set_status m done
  | Failure :: _ => set_status m error
  end.

Definition consumeStream (s : Stream) (m : Message) : Message :=
  consume (events s) m.

(** ** Id generator ([shared/utils.ts])

    [rnd] stands for the string [Math.random().toString(36)], the only
    source of variation between two calls. *)
Definition generateId (prefix : option string) (rnd : string) : string :=
  let id := JS.substring 2 15 rnd in
  match prefix with
  | Some p => if JS.truthy p then p +:+ "-" +:+ id else id
  | None => id
  end.

(** ** Server state

    [heap] holds the Message objects, [messages] is the in-memory array of
    references to them.  One generation is followed at a time: [source] is
    what the chunk source has yet to deliver, [branch1] and [branch2] are the
    queues of the two tee branches, [persister] is the message the detached
    task of [consumeStream] is still writing to.  [relay] and [poller] are
    the generators handed to the client by [sendMessage] and
    [resumeMessage]. *)

Abbreviation ref := nat (only parsing).

Inductive GenState :=
| Running      (* suspended, more to come *)
| Returned     (* ran to its end *)
| Threw        (* ended by an exception *)
| Aborted.     (* closed by the caller *)

Record Relay := mkRelay {
  relay_id : string;
  relay_state : GenState;
  relay_out : list StreamChunk
}.

(** Where [pollMessage] is suspended. *)
Inductive PollPc :=
| AtLoopHead (lastWordCount : nat)         (* before line 123: at the start or in the poll interval *)
| AtYield (words : list string) (i : nat)  (* at the [yield] of line 128 *)
| PollReturned.                            (* after the terminal chunk *)

Record Poller := mkPoller {
  poll_ref : ref;
  poll_pc : PollPc;
  poll_out : list StreamChunk;
  poll_log : list nat    (* the values of [i] at the yields of line 128 *)
}.

Record Sys := mkSys {
  heap : list Message;
  messages : list ref;
  source : list ReadResult;
  branch1 : list ReadResult;
  branch2 : list ReadResult;
  persister : option ref;
  relay : option Relay;
  poller : option Poller
}.

Definition empty_server : Sys := mkSys [] [] [] [] [] None None None.

(** *** The tee: one item of the source goes to both branches.

    A value or the end of the stream joins the queue of a branch.  An error
    puts the branch into the errored state, which resets its queue: what the
    branch held and nobody had read is gone, and the next read rejects.  The
    persister asks for the next item as soon as it has dealt with one (line
    69 is the only suspension of its loop), so its branch never queues
    anything: [branch1] lists the outcomes already handed to its reads on
    which the loop has yet to run, and an error takes none of them back.
    The relay reads only when its consumer asks, so [branch2] is the queue
    of the branch itself. *)
Definition enqueue (q : list ReadResult) (ev : ReadResult) : list ReadResult :=
  match ev with
  | Failure => [Failure]
  | _ => q ++ [ev]
  end.

Definition produce (s : Sys) : Sys :=
  match source s with
  | [] => s
  | ev :: rest =>
      mkSys (heap s) (messages s) rest (branch1 s ++ [ev]) (enqueue (branch2 s) ev)
            (persister s) (relay s) (poller s)
  end.

(** *** One turn of the loop of [consumeStream] (lines 68-80). *)
Definition persist_with (s : Sys) (r : ref) (m : Message) (q : list ReadResult)
    (p : option ref) : Sys :=
  mkSys (<[r := m]> (heap s)) (messages s) (source s) q (branch2 s)
        p (relay s) (poller s).

Definition persist (s : Sys) : Sys :=
  match persister s, branch1 s with
  | Some r, ev :: q =>
      match heap s !! r with
      | Some m =>
          match ev with
          | Value word => persist_with s r (append_word m word) q (Some r)
          | Done => persist_with s r (set_status m done) q None
          | Failure => persist_with s r (set_status m error) q None
          end
      | None => s
      end
  | _, _ => s
  end.

(** *** Live relay: [convertReadableStreamToAsyncIterable] (lines 85-111). *)
Definition set_relay (s : Sys) (q : list ReadResult) (rl : Relay) : Sys :=
  mkSys (heap s) (messages s) (source s) (branch1 s) q
        (persister s) (Some rl) (poller s).

(** A read of the relay settles: the generator takes the head of its
    branch and runs up to the next [yield], to its end, or into the
    exception.  While the branch is empty the read stays pending. *)
Definition relay_next (s : Sys) : Sys :=
  match relay s with
  | Some (mkRelay mid Running out) =>
      match branch2 s with
      | Value word :: q =>
          set_relay s q (mkRelay mid Running (out ++ [mkChunk mid streaming word]))
      | Done :: q =>
          set_relay s q (mkRelay mid Returned (out ++ [mkChunk mid done ""]))
      | Failure :: q =>
          set_relay s q (mkRelay mid Threw out)
      | [] => s
      end
  | _ => s
  end.

(** The client call is aborted: the generator is closed, its [finally]
    releases the reader, the branch itself is left alone. *)
Definition abort (s : Sys) : Sys :=
  match relay s with
  | Some (mkRelay mid Running out) =>
      set_relay s (branch2 s) (mkRelay mid Aborted out)
  | _ => s
  end.

(** [convertReadableStreamToAsyncIterable] driven to its end by a consumer
    that keeps asking: the chunks yielded and how the generator ends.  A
    rejected read is not caught (the [try] has only a [finally]), so it ends
    the generator by an exception; with no outcome left the read is
    pending.  [relay_next] above is the same generator, resumed one item at
    a time. *)
Fixpoint convertReadableStreamToAsyncIterable
    (rs : list ReadResult) (messageId : string) : list StreamChunk * GenState :=
  match rs with
  | [] => ([], Running)
  | Value word :: rs' =>
      let '(out, st) := convertReadableStreamToAsyncIterable rs' messageId in
      (mkChunk messageId streaming word :: out, st)
  | Done :: _ => ([mkChunk messageId done ""], Returned)
  | Failure :: _ => ([], Threw)
  end.

(** *** Resume poller: [pollMessage] (lines 114-153). *)
Definition pollMessage (message : ref) (startWordCount : nat) : Poller :=
  mkPoller message (AtLoopHead startWordCount) [] [].

(** The [for] loop at index [i] over the snapshot [words], then lines
    134-151 once the loop is left. *)
Definition poll_from (m : Message) (p : Poller) (words : list string) (i : nat) : Poller :=
  match words !! i with
  | Some w =>
      mkPoller (poll_ref p) (AtYield words i)
               (poll_out p ++ [mkChunk (id m) streaming w]) (poll_log p ++ [i])
  | None =>
      let lastWordCount := length words in
      match status m with
      | done =>
          mkPoller (poll_ref p) PollReturned
                   (poll_out p ++ [mkChunk (id m) done ""]) (poll_log p)
      | error =>
          mkPoller (poll_ref p) PollReturned
                   (poll_out p ++ [mkChunk (id m) error ""]) (poll_log p)
      | streaming =>
          mkPoller (poll_ref p) (AtLoopHead lastWordCount) (poll_out p) (poll_log p)
      end
  end.

Definition poll_resume (m : Message) (p : Poller) : Poller :=
  match poll_pc p with
  | AtLoopHead lastWordCount => poll_from m p (split_words (content m)) lastWordCount
  | AtYield words i => poll_from m p words (S i)
  | PollReturned => p
  end.

Definition poll_next (s : Sys) : Sys :=
  match poller s with
  | Some p =>
      match heap s !! poll_ref p with
      | Some m =>
          mkSys (heap s) (messages s) (source s) (branch1 s) (branch2 s)
                (persister s) (relay s) (Some (poll_resume m p))
      | None => s
      end
  | None => s
  end.

(** *** Schedules *)
Inductive Action := Produce | Persist | RelayNext | Abort | PollNext.

Global Instance Action_eq_dec : EqDecision Action.
Proof. solve_decision. Defined.

Definition step (s : Sys) (a : Action) : Sys :=
  match a with
  | Produce => produce s
  | Persist => persist s
  | RelayNext => relay_next s
  | Abort => abort s
  | PollNext => poll_next s
  end.

Definition run (sch : list Action) (s : Sys) : Sys := fold_left step sch s.

(** ** Procedures *)

Inductive Error := NotFound.

Inductive Result (A : Type) :=
| Ok (a : A)
| Throw (e : Error).
Arguments Ok {A} a.
Arguments Throw {A} e.

(** [sendMessage] (lines 167-196) up to the first suspension: both pushes,
    the tee, the start of the persister and of the relay.  [rnd] and [now]
    are the values of [Math.random().toString(36)] and [Date.now()].  The
    generation started here becomes the one the state follows: its source,
    branches, persister and relay take the place of those of the generation
    before.  That is what the program does when the earlier generation has
    finished; an earlier persister that is still running would go on
    writing to its message in the program, which the state does not follow,
    so what is said about the earlier messages of the store is said for a
    server on which no generation is in flight ([settled] below). *)
Definition sendMessage_on (stream : Stream) (input : Message) (rnd : string) (now : Z)
    (s : Sys) : Sys :=
  let user_ref := length (heap s) in
  let assistantMessage :=
    mkMessage (generateId (Some "assistant") rnd) "" assistant now streaming in
  let assistant_ref := S user_ref in
  mkSys (heap s ++ [input; assistantMessage])
        (messages s ++ [user_ref; assistant_ref])
        (events stream) [] []
        (Some assistant_ref)
        (Some (mkRelay (id assistantMessage) Running []))
        (poller s).

Definition sendMessage (pick : nat) := sendMessage_on (completion pick).

(** [messages.find((m) => m.id === input.id)] *)
Definition find_message (s : Sys) (i : string) : option ref :=
  List.find (fun r => match heap s !! r with
                      | Some m => bool_decide (id m = i)
                      | None => false
                      end) (messages s).

(** [resumeMessage] (lines 199-218) up to the first suspension. *)
Definition resumeMessage (input : Message) (s : Sys) : Result Sys :=
  match find_message s (id input) with
  | None => Throw NotFound
  | Some message =>
      let startWordCount := length (split_words (content input)) in
      Ok (mkSys (heap s) (messages s) (source s) (branch1 s) (branch2 s)
                (persister s) (relay s) (Some (pollMessage message startWordCount)))
  end.

(** [clearMessages]: [messages.length = 0]; the objects stay in the heap. *)
Definition clearMessages (s : Sys) : Sys :=
  mkSys (heap s) [] (source s) (branch1 s) (branch2 s)
        (persister s) (relay s) (poller s).

Definition listMessages (s : Sys) : list Message :=
  omap (fun r => heap s !! r) (messages s).

(** ** Chunks

    A chunk in the sense of the glossary: a non-empty string without a
    space. *)

Fixpoint has_char (c : ascii) (s : string) : bool :=
  match s with
  | EmptyString => false
  | String c' s' => Ascii.eqb c' c || has_char c s'
  end.

Definition is_chunk (w : string) : bool :=
  JS.truthy w && negb (has_char JS.space w).

(** The content a client holds after receiving the chunks [ws] on an empty
    message, and the content the persister has written after them: both use
    the rule of line 72. *)
Definition joined (ws : list string) : string :=
  content (fold_left append_word ws (mkMessage "" "" assistant 0%Z streaming)).

(** * Vocabulary of the properties

    Observations on states, the runs the properties speak about, the invariants
    of the proofs, and the concrete states of the scenarios. *)

(** ** Observations *)

Definition final_status (e : Ending) : Status :=
  match e with Closed => done | Errored => error end.

Definition assistant_message (rnd : string) (now : Z) : Message :=
  mkMessage (generateId (Some "assistant") rnd) "" assistant now streaming.

(** The reference [sendMessage] gives to the assistant message. *)
Definition assistant_ref (s : Sys) : ref := S (length (heap s)).

Definition stored_ids (s : Sys) : list string := map id (listMessages s).

(** References of the store point into the heap. *)
Definition store_wf (s : Sys) : Prop :=
  Forall (fun r => r < length (heap s)) (messages s).

(** No generation is in flight: no persister runs and no message of the
    store is still [streaming]. *)
Definition settled (s : Sys) : Prop :=
  persister s = None
  /\ Forall (fun m => status m <> streaming) (listMessages s).

(** What the persister reads and writes. *)
Definition persister_side (s : Sys) :
    list Message * list ReadResult * list ReadResult * option ref :=
  (heap s, source s, branch1 s, persister s).

Definition relay_emitted (s : Sys) : list StreamChunk :=
  match relay s with
  | Some rl => relay_out rl
  | None => []
  end.

Definition relay_running (s : Sys) : bool :=
  match relay s with
  | Some (mkRelay _ Running _) => true
  | _ => false
  end.

Definition relay_aborted (s : Sys) : bool :=
  match relay s with
  | Some (mkRelay _ Aborted _) => true
  | _ => false
  end.

Definition relay_tag (s : Sys) : option string := relay_id <$> relay s.

Definition poll_emitted (s : Sys) : list StreamChunk :=
  match poller s with
  | Some p => poll_out p
  | None => []
  end.

Definition poll_returned (s : Sys) : bool :=
  match poller s with
  | Some (mkPoller _ PollReturned _ _) => true
  | _ => false
  end.

(** The chunks a poller has emitted with status [streaming]. *)
Definition poll_streamed (p : Poller) : list StreamChunk :=
  List.filter (fun c => bool_decide (chunk_status c = streaming)) (poll_out p).

(** How often a schedule resumes the poller. *)
Definition polls (sch : list Action) : nat :=
  length (List.filter (fun a => bool_decide (a = PollNext)) sch).

(** The stream a caller of [resumeMessage] gets to see under a schedule. *)
Definition resume_stream (input : Message) (s : Sys) (sch : list Action) :
    Result (list StreamChunk) :=
  match resumeMessage input s with
  | Ok s' => Ok (poll_emitted (run sch s'))
  | Throw e => Throw e
  end.

(** ** Runs *)

(** The run of a schedule in which the client call is aborted as soon as
    the relay has emitted [k] chunks. *)
Definition abort_after (k : nat) (s : Sys) : Sys :=
  if decide (k <= length (relay_emitted s)) then abort s else s.

Definition step_abort_after (k : nat) (s : Sys) (a : Action) : Sys :=
  abort_after k (step s a).

Definition run_abort_after (k : nat) (sch : list Action) (s : Sys) : Sys :=
  fold_left (step_abort_after k) sch (abort_after k s).


(** Enough turns of the source and of the persister to finish a stream. *)
Definition drain (stream : Stream) : list Action :=
  repeat Produce (length (events stream)) ++ repeat Persist (length (events stream)).

(** [n] resumptions of a poller that reads the same message each time. *)
Fixpoint poll_times (n : nat) (m : Message) (p : Poller) : Poller :=
  match n with
  | 0 => p
  | S n' => poll_times n' m (poll_resume m p)
  end.

(** ** Invariants *)

Definition is_end (r : ReadResult) : bool :=
  match r with Value _ => false | _ => true end.

(** The message a running persister is heading for. *)
Definition heading_for (a : ref) (s : Sys) : option Message :=
  match heap s !! a with
  | Some m =>
      if decide (persister s = Some a)
      then Some (consume (branch1 s ++ source s) m)
      else Some m
  | None => None
  end.

(** What stays true of the persister's side along every schedule. *)
Definition on_course (a : ref) (bound : nat) (s : Sys) : Prop :=
  a < length (heap s)
  /\ length (branch1 s ++ source s) <= bound
  /\ (persister s = None
      \/ (persister s = Some a
          /\ existsb is_end (branch1 s ++ source s) = true)).

(** The relay of an aborted run has emitted at most [k] chunks and has
    stopped once it has emitted [k]. *)
Definition bounded (k : nat) (s : Sys) : Prop :=
  length (relay_emitted s) <= k
  /\ (length (relay_emitted s) = k -> relay_running s = false).

(** No error is on its way from the source. *)
Definition unfailing (s : Sys) : Prop := Failure ∉ source s.

(** Where a relay is heading: what it has emitted so far, followed by what
    it will still emit from its branch and from the source, as long as no
    error resets the branch. *)
Definition relay_heading (s : Sys) : option (list StreamChunk * GenState) :=
  match relay s with
  | Some (mkRelay mid Running out) =>
      let '(more, st) :=
        convertReadableStreamToAsyncIterable (branch2 s ++ source s) mid in
      Some (out ++ more, st)
  | Some (mkRelay mid st out) => Some (out, st)
  | None => None
  end.

(** On a source that does not fail: along every schedule the relay has
    emitted a prefix of what the source holds for it, and unless it was
    aborted it is still heading for all of it. *)
Definition relay_on_course (hd : list StreamChunk * GenState) (s : Sys) : Prop :=
  relay_emitted s `prefix_of` fst hd
  /\ (relay_aborted s = true \/ relay_heading s = Some hd).

Definition terminal_chunk (m : Message) : StreamChunk :=
  mkChunk (id m) (status m) "".

(** What a poller still has to emit once its message is terminal. *)
Definition poll_remaining (m : Message) (p : Poller) : list StreamChunk :=
  match poll_pc p with
  | AtLoopHead lastWordCount =>
      map (mkChunk (id m) streaming) (drop lastWordCount (split_words (content m)))
        ++ [terminal_chunk m]
  | AtYield words i =>
      map (mkChunk (id m) streaming) (drop (S i) words) ++ [terminal_chunk m]
  | PollReturned => []
  end.

(** The state of the loop of [pollMessage] agrees with its log of indices:
    every logged index lies below the next index to be emitted, and a
    snapshot taken at line 123 is a prefix of the words of the content
    [W]. *)
Definition poll_pc_ok (W : list string) (p : Poller) : Prop :=
  match poll_pc p with
  | AtLoopHead lastWordCount =>
      Forall (fun j => j < lastWordCount) (poll_log p)
      /\ (poll_log p = [] \/ lastWordCount <= length W)
  | AtYield words i =>
      Forall (fun j => j <= i) (poll_log p)
      /\ i < length words /\ words `prefix_of` W
  | PollReturned => True
  end.

(** The log is strictly increasing and every chunk emitted with status
    [streaming] is the word of the content at its logged index. *)
Definition poll_ok (W : list string) (p : Poller) : Prop :=
  StronglySorted lt (poll_log p)
  /\ Forall2 (fun c i => W !! i = Some (text c)) (poll_streamed p) (poll_log p)
  /\ poll_pc_ok W p.

Definition poller_ok (s : Sys) : Prop :=
  exists p m, poller s = Some p /\ heap s !! poll_ref p = Some m
              /\ poll_ok (split_words (content m)) p.

(** While the persister of a failing generation runs, its message is
    still [streaming]; once it has left the loop the message is the final
    one. *)
Definition failing_course (a : ref) (final : Message) (s : Sys) : Prop :=
  heading_for a s = Some final
  /\ (persister s = None
      \/ (persister s = Some a
          /\ exists m, heap s !! a = Some m /\ status m = streaming
                       /\ id m = id final)).



(** ** The wording of the specification *)


(** The number of maximal runs of characters that are not separators;
    [in_word] tells whether the previous character belongs to a run. *)
Fixpoint count_runs (sep : ascii -> bool) (in_word : bool) (s : string) : nat :=
  match s with
  | EmptyString => 0
  | String c s' =>
      if sep c then count_runs sep false s'
      else (if in_word then 0 else 1) + count_runs sep true s'
  end.

Definition is_space (c : ascii) : bool := Ascii.eqb c JS.space.

(** Tab, line feed, vertical tab, form feed, carriage return and space. *)
Definition is_whitespace (c : ascii) : bool :=
  match nat_of_ascii c with
  | 9 | 10 | 11 | 12 | 13 | 32 => true
  | _ => false
  end.

(** The counting rule in the words of the specification: the number of
    whitespace-delimited words. *)
Definition spec_whitespace_word_count (s : string) : nat :=
  count_runs is_whitespace false s.

(** The number of words delimited by the space character alone. *)
Definition space_word_count (s : string) : nat :=
  count_runs is_space false s.

Fixpoint only_space_whitespace (s : string) : bool :=
  match s with
  | EmptyString => true
  | String c s' => (is_space c || negb (is_whitespace c)) && only_space_whitespace s'
  end.

(** ** Scenarios of the specification, as concrete states *)

Module Scenario.

Definition u1 : Message := mkMessage "u1" "hi" user 0%Z done.

(** Scenario A: [sendMessage] on a source yielding a, b, c. *)
Definition sent : Sys :=
  sendMessage_on (mkStream ["a"; "b"; "c"] Closed) u1 "0.abc" 5%Z empty_server.

(** Scenario B: the client took one chunk and went away; persistence has
    reached the end of the stream. *)
Definition persisted : Sys :=
  run [Produce; Persist; RelayNext; Abort; Produce; Produce; Produce;
       Persist; Persist; Persist] sent.

Definition client_copy : Message :=
  mkMessage "assistant-abc" "a" assistant 5%Z streaming.

(** The same generation on a source that fails after its first chunk. *)
Definition failing : Sys :=
  sendMessage_on (mkStream ["a"] Errored) u1 "0.abc" 5%Z empty_server.

(** The relay reads the chunk as it arrives. *)
Definition failed : Sys :=
  run [Produce; Persist; RelayNext; Produce; Persist; RelayNext] failing.

(** The relay reads only after the source has failed. *)
Definition failed_unread : Sys :=
  run [Produce; Persist; Produce; Persist; RelayNext; RelayNext] failing.

(** A reported content with a tab between two letters. *)
Definition tabbed : string := String "a" (String "009" (String "b" EmptyString)).

End Scenario.

(** ** Vocabulary of the further properties *)

(** Everything but the poller of a resume call. *)
Definition without_poller (s : Sys) : Sys :=
  mkSys (heap s) (messages s) (source s) (branch1 s) (branch2 s)
        (persister s) (relay s) None.

(** The words a poller on a message in status [streaming] has not emitted
    yet. *)
Definition poll_pending (m : Message) (p : Poller) : list string :=
  match poll_pc p with
  | AtLoopHead lastWordCount => drop lastWordCount (split_words (content m))
  | AtYield words i => drop (S i) words
  | PollReturned => []
  end.

(** The indices emitted so far are [start], [start + 1], ... and the loop
    stands right after the last of them, within the words [W] of the
    content. *)
Definition poll_contiguous (start : nat) (W : list string) (p : Poller) : Prop :=
  poll_log p = seq start (length (poll_log p))
  /\ match poll_pc p with
     | AtLoopHead lastWordCount =>
         lastWordCount = start + length (poll_log p) /\ lastWordCount <= length W
     | AtYield words i =>
         S i = start + length (poll_log p) /\ i < length words
         /\ words `prefix_of` W
     | PollReturned => True
     end.

Definition poller_contiguous (start : nat) (s : Sys) : Prop :=
  exists p m, poller s = Some p /\ heap s !! poll_ref p = Some m
              /\ poll_contiguous start (split_words (content m)) p.

(** A snapshot held at a [yield] is the list of words of the message. *)
Definition poll_snapshot_current (m : Message) (p : Poller) : Prop :=
  match poll_pc p with
  | AtYield words _ => words = split_words (content m)
  | _ => True
  end.

(** ** Client ([client/Chat.tsx])

    The two streaming mutations of the chat component.  The query cache
    holds the list of messages or nothing yet (the updaters default it to
    the empty list); the chunks a mutation processes are those that arrive
    before its stream ends or its signal is aborted. *)

(** Lines 27-33: the user message built from the input field. *)
Definition client_user_message (text : string) (rnd : string) (now : Z) : Message :=
  mkMessage (generateId (Some "user") rnd) text user now done.

(** Lines 60-68 and 162-170: one received chunk applied to the client's
    copy of the message. *)
Definition client_apply (m : Message) (chunk : StreamChunk) : Message :=
  let m' :=
    mkMessage (messageId chunk) (content m) (role m) (createdAt m)
              (chunk_status chunk) in
  if JS.truthy (text chunk) then append_word m' (text chunk) else m'.

(** [updated.findIndex((m) => m.id === messageId)], with [None] for -1. *)
Fixpoint findIndex (i : string) (l : list Message) : option nat :=
  match l with
  | [] => None
  | m :: l' => if bool_decide (id m = i) then Some 0 else S <$> findIndex i l'
  end.

(** Lines 36-39: [(old = []) => [...old, userMessage]]. *)
Definition cache_push (old : option (list Message)) (m : Message) : list Message :=
  default [] old ++ [m].

(** Lines 73-86: replace the first entry with that id by the copy, or
    append the copy. *)
Definition cache_upsert (old : option (list Message)) (messageId : string)
    (copy : Message) : list Message :=
  let updated := default [] old in
  match findIndex messageId updated with
  | Some existingIndex => <[existingIndex := copy]> updated
  | None => updated ++ [copy]
  end.

(** Lines 175-187: replace the first entry with that id by the copy, if
    there is one. *)
Definition cache_replace (old : option (list Message)) (messageId : string)
    (copy : Message) : list Message :=
  let updated := default [] old in
  match findIndex messageId updated with
  | Some existingIndex => <[existingIndex := copy]> updated
  | None => updated
  end.

(** Lines 99-105: [old.map((m) => m.id === copy.id ? copy : m)]. *)
Definition cache_mark (old : option (list Message)) (copy : Message) : list Message :=
  map (fun m => if bool_decide (id m = id copy) then copy else m) (default [] old).

(** One turn of the loop of the [sendMessage] mutation (lines 54-87). *)
Definition client_send_chunk (st : Message * option (list Message))
    (chunk : StreamChunk) : Message * option (list Message) :=
  let assistantMessage := client_apply (fst st) chunk in
  (assistantMessage,
   Some (cache_upsert (snd st) (messageId chunk) assistantMessage)).

(** The [sendMessage] mutation (lines 19-112) on the chunks it receives and
    the way its stream ends; the flag tells whether the mutation rethrows.
    Only a stream that throws takes the error path of the [catch]. *)
Definition client_sendMessage (cache : option (list Message)) (text rnd : string)
    (now1 now2 : Z) (chunks : list StreamChunk) (outcome : GenState) :
    Message * option (list Message) * bool :=
  let userMessage := client_user_message text rnd now1 in
  let cache0 := Some (cache_push cache userMessage) in
  let assistantMessage := mkMessage "" "" assistant now2 streaming in
  let st := fold_left client_send_chunk chunks (assistantMessage, cache0) in
  match outcome with
  | Threw =>
      if JS.truthy (id (fst st))
      then let failed := set_status (fst st) error in
           (failed, Some (cache_mark (snd st) failed), true)
      else (fst st, snd st, true)
  | _ => (fst st, snd st, false)
  end.

(** The loop of the [resumeMessage] mutation (lines 156-193): it stops
    after a chunk with status [done]. *)
Fixpoint client_resume_loop (chunks : list StreamChunk)
    (st : Message * option (list Message)) : Message * option (list Message) :=
  match chunks with
  | [] => st
  | chunk :: rest =>
      let resumedMessage := client_apply (fst st) chunk in
      let st' :=
        (resumedMessage,
         Some (cache_replace (snd st) (messageId chunk) resumedMessage)) in
      if bool_decide (chunk_status chunk = done) then st'
      else client_resume_loop rest st'
  end.

(** The [resumeMessage] mutation (lines 136-199) up to its return. *)
Definition client_resumeMessage (cache : option (list Message)) (message : Message)
    (chunks : list StreamChunk) : Message * option (list Message) :=
  client_resume_loop chunks (message, cache).

(** ** Further concrete states *)

Module Cases.

(** A store that holds a message in status [streaming] nobody writes to:
    the client sent it with that status. *)
Definition quiet : Sys :=
  run [Produce; Produce; Persist; Persist]
    (sendMessage_on (mkStream ["a"] Closed)
       (mkMessage "u2" "x y z" user 0%Z streaming) "0.abc" 5%Z empty_server).

Definition quiet_report : Message := mkMessage "u2" "x" user 0%Z streaming.

End Cases.

(** * Properties *)

(** ** Splitting *)

Section Splitting.

Lemma split_not_nil sep s : JS.split sep s <> [].
Proof.
  destruct s as [|c s]; simpl; [discriminate|].
  destruct (Ascii.eqb c sep); [discriminate|].
  destruct (JS.split sep s); discriminate.
Qed.

Lemma split_app_sep sep a b :
  JS.split sep (a +:+ String sep b) = JS.split sep a ++ JS.split sep b.
Proof.
  induction a as [|c a IH]; simpl.
  - by rewrite Ascii.eqb_refl.
  - destruct (Ascii.eqb c sep); [by rewrite IH|].
    rewrite IH. pose proof (split_not_nil sep a) as Hne.
    destruct (JS.split sep a); [done|reflexivity].
Qed.

Lemma split_no_sep sep w : has_char sep w = false -> JS.split sep w = [w].
Proof.
  induction w as [|c w IH]; simpl; [done|].
  intros [Hc Hw]%orb_false_iff. rewrite Hc, (IH Hw). reflexivity.
Qed.

(** No piece of a split contains the separator. *)
Lemma split_pieces_no_sep sep s :
  Forall (fun p => has_char sep p = false) (JS.split sep s).
Proof.
  induction s as [|c s IH]; simpl; [by repeat constructor|].
  destruct (Ascii.eqb c sep) eqn:E; [by constructor|].
  destruct (JS.split sep s) as [|p ps]; [by repeat constructor; simpl; rewrite E|].
  apply Forall_cons in IH as [Hp Hps].
  constructor; [|done]. simpl. by rewrite E, Hp.
Qed.

(** The chunk source of the program yields chunks. *)
Example completion_yields_chunks :
  forallb is_chunk (chunks (completion 0)) = true.
Proof. by vm_compute. Qed.

Lemma split_words_empty : split_words "" = [].
Proof. reflexivity. Qed.

Lemma split_words_app_space a b :
  split_words (a +:+ " " +:+ b) = split_words a ++ split_words b.
Proof.
  unfold split_words. change (" " +:+ b) with (String JS.space b).
  by rewrite split_app_sep, List.filter_app.
Qed.

Lemma split_words_chunk w : is_chunk w = true -> split_words w = [w].
Proof.
  unfold is_chunk, split_words.
  intros [Ht Hs%negb_true_iff]%andb_true_iff.
  rewrite (split_no_sep _ _ Hs). simpl. by rewrite Ht.
Qed.

(** Whatever the word, appending it with the rule of line 72 appends its
    pieces to the pieces of the content. *)
Lemma split_words_append_word m w :
  split_words (content (append_word m w))
  = split_words (content m) ++ split_words w.
Proof.
  unfold append_word; simpl.
  destruct (content m) as [|c s] eqn:E; simpl JS.truthy; cbv iota.
  - reflexivity.
  - apply split_words_app_space.
Qed.

Lemma split_words_fold ws m :
  split_words (content (fold_left append_word ws m))
  = split_words (content m) ++ concat (map split_words ws).
Proof.
  revert m; induction ws as [|w ws IH]; intros m; simpl.
  - by rewrite app_nil_r.
  - by rewrite IH, split_words_append_word, <- app_assoc.
Qed.

Lemma concat_split_chunks ws :
  forallb is_chunk ws = true -> concat (map split_words ws) = ws.
Proof.
  induction ws as [|w ws IH]; simpl; [done|].
  intros [Hw Hws]%andb_true_iff.
  by rewrite (split_words_chunk _ Hw), (IH Hws).
Qed.

Lemma split_words_joined ws :
  forallb is_chunk ws = true -> split_words (joined ws) = ws.
Proof.
  intros H. unfold joined. rewrite split_words_fold. simpl.
  by apply concat_split_chunks.
Qed.

End Splitting.

(** ** The persister's loop *)

Section Persister.

Lemma consume_values ws rest m :
  consume (map Value ws ++ rest) m = consume rest (fold_left append_word ws m).
Proof.
  revert m; induction ws as [|w ws IH]; intros m; simpl; [done|apply IH].
Qed.

Lemma consume_end e rest m :
  consume (end_event e :: rest) m = set_status m (final_status e).
Proof. by destruct e. Qed.

Lemma consumeStream_unfold s m :
  consumeStream s m
  = set_status (fold_left append_word (chunks s) m) (final_status (ending s)).
Proof. unfold consumeStream, events. by rewrite consume_values, consume_end. Qed.

Lemma content_consumeStream s m :
  content (consumeStream s m) = content (fold_left append_word (chunks s) m).
Proof. by rewrite consumeStream_unfold. Qed.

Lemma fold_append_content ws m m' :
  content m = content m' ->
  content (fold_left append_word ws m) = content (fold_left append_word ws m').
Proof.
  revert m m'; induction ws as [|w ws IH]; intros m m' E; simpl; [done|].
  apply IH. unfold append_word; simpl. by rewrite E.
Qed.

Lemma content_consumeStream_joined s m :
  content m = "" -> content (consumeStream s m) = joined (chunks s).
Proof.
  intros E. rewrite content_consumeStream. unfold joined.
  by apply fold_append_content.
Qed.

Lemma id_fold_append ws m : id (fold_left append_word ws m) = id m.
Proof. revert m; induction ws as [|w ws IH]; intros m; simpl; [done|by rewrite IH]. Qed.

Lemma status_fold_append ws m : status (fold_left append_word ws m) = status m.
Proof. revert m; induction ws as [|w ws IH]; intros m; simpl; [done|by rewrite IH]. Qed.

Lemma fold_append_fields ws m :
  fold_left append_word ws m
  = set_content m (content (fold_left append_word ws m)).
Proof.
  revert m; induction ws as [|w ws IH]; intros m; simpl.
  - by destruct m.
  - by rewrite IH at 1.
Qed.

(** On the empty message [sendMessage] creates, the persister ends with
    the chunks joined by single spaces and the status of the ending. *)
Lemma consumeStream_fresh ws e m :
  content m = "" ->
  consumeStream (mkStream ws e) m
  = mkMessage (id m) (joined ws) (role m) (createdAt m) (final_status e).
Proof.
  intros Hm. rewrite consumeStream_unfold; simpl.
  rewrite fold_append_fields. unfold set_status, set_content; simpl.
  f_equal. unfold joined. by apply fold_append_content.
Qed.

Lemma split_words_persisted ws m :
  content m = "" -> forallb is_chunk ws = true ->
  split_words (content (fold_left append_word ws m)) = ws.
Proof.
  intros Hm Hws. rewrite split_words_fold, Hm, split_words_empty. simpl.
  by apply concat_split_chunks.
Qed.

End Persister.

(** C10. Round trip between persistence and resume splitting: chunks that
    are non-empty and free of spaces, appended to an empty content with the
    persister's rule and split again with the poller's rule, come back as
    the same list, so the poller counts as many chunks as were persisted. *)
Theorem persist_split_roundtrip (ws : list string) (e : Ending) (m : Message) :
  content m = "" ->
  forallb is_chunk ws = true ->
  split_words (content (fold_left append_word ws m)) = ws
  /\ split_words (content (consumeStream (mkStream ws e) m)) = ws
  /\ length (split_words (content (consumeStream (mkStream ws e) m))) = length ws.
Proof.
  intros Hm Hws.
  pose proof (split_words_persisted ws m Hm Hws) as H.
  rewrite content_consumeStream; simpl. by rewrite H.
Qed.

Lemma persist_split_roundtrip_witness :
  split_words (content (fold_left append_word ["a"; "b"; "c"]
                          (mkMessage "assistant-1" "" assistant 0%Z streaming)))
  = ["a"; "b"; "c"].
Proof.
  apply (persist_split_roundtrip ["a"; "b"; "c"] Closed
           (mkMessage "assistant-1" "" assistant 0%Z streaming));
    reflexivity.
Defined.

(** C3. The persister appends each chunk in source order, with one
    separator exactly when the content is non-empty; a branch that closes
    leaves the message with status [done], a failing read leaves it with
    status [error], in both cases with the content of the chunks read
    before and with its id, role and creation time untouched, and nothing
    after the end or the failure is read; the persisted content of chunks
    split back gives the sequence of the chunk source. *)
Theorem persister_appends_in_order (ws : list string) (e : Ending) (m : Message) :
  (forall w m', content m' = "" -> content (append_word m' w) = w)
  /\ (forall w m', content m' <> "" ->
        content (append_word m' w) = content m' +:+ " " +:+ w)
  /\ consumeStream (mkStream ws e) m
     = set_status (fold_left append_word ws m) (final_status e)
  /\ (forall rest, consume (map Value ws ++ Done :: rest) m
                   = set_status (fold_left append_word ws m) done)
  /\ (forall rest, consume (map Value ws ++ Failure :: rest) m
                   = set_status (fold_left append_word ws m) error)
  /\ status (consumeStream (mkStream ws Closed) m) = done
  /\ status (consumeStream (mkStream ws Errored) m) = error
  /\ (forall rest,
        consume (map Value ws ++ Done :: rest) m
        = mkMessage (id m) (content (fold_left append_word ws m)) (role m)
            (createdAt m) done)
  /\ (forall rest,
        consume (map Value ws ++ Failure :: rest) m
        = mkMessage (id m) (content (fold_left append_word ws m)) (role m)
            (createdAt m) error)
  /\ (forall w,
        content (fold_left append_word (ws ++ [w]) m)
        = content (fold_left append_word ws m)
            +:+ (if JS.truthy (content (fold_left append_word ws m))
                 then " " else "")
            +:+ w)
  /\ (content m = "" -> forallb is_chunk ws = true ->
      split_words (content (consumeStream (mkStream ws e) m)) = ws).
Proof.
  assert (forall st, set_status (fold_left append_word ws m) st
                     = mkMessage (id m) (content (fold_left append_word ws m))
                         (role m) (createdAt m) st) as Hrec.
  { intros st. rewrite fold_append_fields. done. }
  repeat split.
  - intros w m' E. unfold append_word; simpl. by rewrite E.
  - intros w m' E. unfold append_word; simpl.
    destruct (content m'); [done|reflexivity].
  - apply consumeStream_unfold.
  - intros rest. by rewrite consume_values.
  - intros rest. by rewrite consume_values.
  - by rewrite consumeStream_unfold, Hrec.
  - by rewrite consumeStream_unfold, Hrec.
  - intros rest. by rewrite consume_values, <- Hrec.
  - intros rest. by rewrite consume_values, <- Hrec.
  - intros w. by rewrite fold_left_app.
  - intros Hm Hws. rewrite content_consumeStream; simpl.
    by apply split_words_persisted.
Qed.

Lemma persister_appends_in_order_witness :
  split_words (content (consumeStream (mkStream (chunks (completion 0)) Closed)
                          (mkMessage "assistant-1" "" assistant 0%Z streaming)))
  = chunks (completion 0)
  /\ status (consumeStream (mkStream (chunks (completion 0)) Closed)
               (mkMessage "assistant-1" "" assistant 0%Z streaming)) = done
  /\ status (consumeStream (mkStream (chunks (completion 0)) Errored)
               (mkMessage "assistant-1" "" assistant 0%Z streaming)) = error.
Proof.
  destruct (persister_appends_in_order (chunks (completion 0)) Closed
              (mkMessage "assistant-1" "" assistant 0%Z streaming))
    as (_ & _ & _ & _ & _ & Hdone & Herror & _ & _ & _ & Hsplit).
  split; [|split; [exact Hdone|exact Herror]].
  apply Hsplit.
  - reflexivity.
  - by vm_compute.
Defined.

(** ** Interleavings of source, persister and client *)

Section Interleaving.

Lemma abort_persister_side s : persister_side (abort s) = persister_side s.
Proof.
  unfold abort. destruct (relay s) as [[mid [] out]|]; reflexivity.
Qed.

Lemma abort_after_persister_side k s :
  persister_side (abort_after k s) = persister_side s.
Proof. unfold abort_after. case_decide; [apply abort_persister_side|done]. Qed.

Lemma relay_next_persister_side s :
  persister_side (relay_next s) = persister_side s.
Proof.
  unfold relay_next.
  destruct (relay s) as [[mid [] out]|]; try reflexivity.
  destruct (branch2 s) as [|[w| |] q]; reflexivity.
Qed.

Lemma poll_next_persister_side s :
  persister_side (poll_next s) = persister_side s.
Proof.
  unfold poll_next. destruct (poller s) as [p|]; [|done].
  destruct (heap s !! poll_ref p); reflexivity.
Qed.

Lemma produce_persister_side s s' :
  persister_side s = persister_side s' ->
  persister_side (produce s) = persister_side (produce s').
Proof.
  unfold persister_side, produce. intros [= Hh Hs Hb Hp].
  rewrite Hs. destruct (source s') eqn:E; simpl; congruence.
Qed.

Lemma persist_persister_side s s' :
  persister_side s = persister_side s' ->
  persister_side (persist s) = persister_side (persist s').
Proof.
  unfold persister_side, persist. intros [= Hh Hs Hb Hp].
  rewrite Hh, Hb, Hp.
  destruct (persister s') as [r|] eqn:Ep; [|simpl; congruence].
  destruct (branch1 s') as [|ev q] eqn:Eb; [simpl; congruence|].
  destruct (heap s' !! r) as [m|] eqn:Em; [|simpl; congruence].
  destruct ev; simpl; congruence.
Qed.

Lemma step_persister_side s s' a :
  persister_side s = persister_side s' ->
  persister_side (step s a) = persister_side (step s' a).
Proof.
  intros E. destruct a; simpl.
  - by apply produce_persister_side.
  - by apply persist_persister_side.
  - by rewrite !relay_next_persister_side.
  - by rewrite !abort_persister_side.
  - by rewrite !poll_next_persister_side.
Qed.

(** Non-interference: under one schedule, the aborted run and the
    undisturbed run show the persister the same state at every instant. *)
Lemma run_abort_after_persister_side k sch s s' :
  persister_side s = persister_side s' ->
  persister_side (fold_left (step_abort_after k) sch s)
  = persister_side (run sch s').
Proof.
  revert s s'; induction sch as [|a sch IH]; intros s s' E; simpl; [done|].
  apply IH. unfold step_abort_after.
  rewrite abort_after_persister_side. by apply step_persister_side.
Qed.

(** The relay of the aborted run never emits more than [k] chunks. *)
Lemma abort_relay_emitted s : relay_emitted (abort s) = relay_emitted s.
Proof.
  unfold relay_emitted, abort.
  destruct (relay s) as [[mid [] out]|] eqn:E; simpl; by rewrite ?E.
Qed.

Lemma abort_after_stops k s :
  k <= length (relay_emitted s) -> relay_running (abort_after k s) = false.
Proof.
  intros H. unfold abort_after. rewrite decide_True by done.
  unfold relay_running, abort.
  destruct (relay s) as [[mid [] out]|] eqn:E; simpl; by rewrite ?E.
Qed.

Lemma step_emitted_stopped s a :
  relay_running s = false ->
  relay_emitted (step s a) = relay_emitted s /\ relay_running (step s a) = false.
Proof.
  destruct s as [h ms src b1 b2 p rl pl].
  unfold relay_running, relay_emitted. simpl. intros H.
  destruct a; simpl.
  - unfold produce; simpl. by destruct src.
  - unfold persist; simpl. destruct p as [r|]; [|done].
    destruct b1 as [|ev q]; [done|].
    destruct (h !! r); [|done]. by destruct ev.
  - unfold relay_next; simpl. by destruct rl as [[mid [] out]|].
  - unfold abort; simpl. by destruct rl as [[mid [] out]|].
  - unfold poll_next; simpl. destruct pl as [pp|]; [|done].
    by destruct (h !! poll_ref pp).
Qed.

Lemma step_emitted_le s a :
  length (relay_emitted (step s a)) <= S (length (relay_emitted s)).
Proof.
  destruct s as [h ms src b1 b2 p rl pl].
  unfold relay_emitted. simpl.
  destruct a; simpl.
  - unfold produce; simpl. destruct src; simpl; lia.
  - unfold persist; simpl. destruct p as [r|]; [|simpl; lia].
    destruct b1 as [|ev q]; [simpl; lia|].
    destruct (h !! r); [|simpl; lia]. destruct ev; simpl; lia.
  - unfold relay_next; simpl. destruct rl as [[mid [] out]|]; simpl; try lia.
    destruct b2 as [|[w| |] q]; simpl; rewrite ?length_app; simpl; lia.
  - unfold abort; simpl. destruct rl as [[mid [] out]|]; simpl; lia.
  - unfold poll_next; simpl. destruct pl as [pp|]; [|simpl; lia].
    destruct (h !! poll_ref pp); simpl; lia.
Qed.

Lemma abort_after_bounded k s :
  length (relay_emitted s) <= k -> bounded k (abort_after k s).
Proof.
  intros H. split.
  - unfold abort_after. case_decide; [by rewrite abort_relay_emitted|done].
  - intros E. destruct (decide (k <= length (relay_emitted s))) as [Hk|Hk].
    + by apply abort_after_stops.
    + unfold abort_after in E. rewrite decide_False in E by done. lia.
Qed.

Lemma step_abort_after_bounded k s a :
  bounded k s -> bounded k (step_abort_after k s a).
Proof.
  intros [Hle Hstop]. apply abort_after_bounded.
  destruct (decide (length (relay_emitted s) = k)) as [E|N].
  - destruct (step_emitted_stopped s a (Hstop E)) as [-> _]. lia.
  - pose proof (step_emitted_le s a). lia.
Qed.

Lemma run_abort_after_bounded k sch s :
  bounded k s -> bounded k (fold_left (step_abort_after k) sch s).
Proof.
  revert s; induction sch as [|a sch IH]; intros s H; simpl; [done|].
  by apply IH, step_abort_after_bounded.
Qed.

End Interleaving.

Section Progress.

Lemma heading_for_side a s s' :
  persister_side s = persister_side s' -> heading_for a s = heading_for a s'.
Proof.
  unfold persister_side, heading_for. intros [= Hh Hs Hb Hp].
  by rewrite Hh, Hs, Hb, Hp.
Qed.

Lemma heading_for_produce a s : heading_for a (produce s) = heading_for a s.
Proof.
  destruct s as [h ms src b1 b2 p rl pl]. unfold produce, heading_for; simpl.
  destruct src as [|ev rest]; simpl; [done|].
  by rewrite <- app_assoc.
Qed.

Lemma heading_for_persist a s : heading_for a (persist s) = heading_for a s.
Proof.
  destruct s as [h ms src b1 b2 p rl pl]. unfold persist, heading_for; simpl.
  destruct p as [r|]; [|done].
  destruct b1 as [|ev q]; [done|].
  destruct (h !! r) as [m|] eqn:Hr; [|done].
  pose proof (lookup_lt_Some _ _ _ Hr) as Hlt.
  destruct (decide (r = a)) as [->|Hne].
  - rewrite Hr.
    destruct ev; simpl; rewrite list_lookup_insert_eq by done;
      repeat case_decide; by simplify_eq.
  - destruct ev; simpl; rewrite list_lookup_insert_ne by done;
      destruct (h !! a) eqn:Ha; repeat case_decide; by simplify_eq.
Qed.

Lemma heading_for_step a s act : heading_for a (step s act) = heading_for a s.
Proof.
  destruct act; simpl.
  - apply heading_for_produce.
  - apply heading_for_persist.
  - apply heading_for_side, relay_next_persister_side.
  - apply heading_for_side, abort_persister_side.
  - apply heading_for_side, poll_next_persister_side.
Qed.

Lemma heading_for_run a sch s : heading_for a (run sch s) = heading_for a s.
Proof.
  revert s; induction sch as [|act sch IH]; intros s; simpl; [done|].
  unfold run in IH. by rewrite IH, heading_for_step.
Qed.

(** Once the persister has left its loop, the message is where it was
    heading. *)
Lemma heading_for_finished a s m :
  heading_for a s = Some m -> persister s = None -> heap s !! a = Some m.
Proof.
  unfold heading_for. intros H Hp. rewrite Hp in H.
  destruct (heap s !! a); [|done]. by rewrite decide_False in H.
Qed.

(** All of the source reaches both branches. *)
Lemma run_produce n s :
  length (source s) <= n ->
  run (repeat Produce n) s
  = mkSys (heap s) (messages s) [] (branch1 s ++ source s)
          (fold_left enqueue (source s) (branch2 s))
          (persister s) (relay s) (poller s).
Proof.
  revert s; induction n as [|n IH]; intros [h ms src b1 b2 p rl pl]; simpl.
  - destruct src; simpl; [|lia]. intros _. by rewrite !app_nil_r.
  - intros Hn. destruct src as [|ev rest]; simpl in *.
    + unfold produce at 1; simpl. fold (run (repeat Produce n)).
      rewrite IH by (simpl; lia). done.
    + unfold produce at 1; simpl. fold (run (repeat Produce n)).
      rewrite IH by (simpl; lia). simpl. by rewrite <- !app_assoc.
Qed.

Lemma run_persist_finished n s :
  persister s = None -> run (repeat Persist n) s = s.
Proof.
  intros Hp. induction n as [|n IH]; simpl; [done|].
  unfold persist at 1. by rewrite Hp.
Qed.

(** A persister whose branch holds the end of the stream leaves its loop. *)
Lemma run_persist_ends a q : forall n h ms src b2 rl pl,
  existsb is_end q = true ->
  length q <= n ->
  a < length h ->
  persister (run (repeat Persist n) (mkSys h ms src q b2 (Some a) rl pl)) = None.
Proof.
  induction q as [|ev q IH]; intros n h ms src b2 rl pl Hend Hn Ha;
    simpl in *; [done|].
  destruct n as [|n]; [lia|]. simpl.
  destruct (lookup_lt_is_Some_2 h a Ha) as [m Hm].
  unfold persist at 1; simpl. rewrite Hm.
  destruct ev as [w| |]; simpl in *.
  - unfold persist_with; simpl. fold (run (repeat Persist n)).
    apply IH; [done|lia|by rewrite length_insert].
  - fold (run (repeat Persist n)). by rewrite run_persist_finished.
  - fold (run (repeat Persist n)). by rewrite run_persist_finished.
Qed.

Lemma on_course_side a bound s s' :
  persister_side s = persister_side s' ->
  on_course a bound s -> on_course a bound s'.
Proof.
  unfold persister_side, on_course. intros [= Hh Hs Hb Hp].
  by rewrite Hh, Hs, Hb, Hp.
Qed.

Lemma on_course_step a bound s act :
  on_course a bound s -> on_course a bound (step s act).
Proof.
  intros H. destruct act; simpl.
  - destruct s as [h ms src b1 b2 p rl pl].
    unfold on_course, produce in *; simpl in *.
    destruct src as [|ev rest]; simpl; [done|].
    by rewrite <- app_assoc.
  - destruct s as [h ms src b1 b2 p rl pl].
    unfold on_course, persist in *; simpl in *.
    destruct H as (Ha & Hlen & Hp).
    destruct p as [r|]; [|simpl; auto].
    destruct b1 as [|ev q]; [simpl; auto|].
    destruct (h !! r) as [m|] eqn:Hr; [|simpl; auto].
    destruct Hp as [|[[= ->] Hend]]; [done|].
    destruct ev; simpl in *; rewrite length_insert;
      (split; [done|split; [lia|auto]]).
  - eapply on_course_side; [symmetry; apply relay_next_persister_side|done].
  - eapply on_course_side; [symmetry; apply abort_persister_side|done].
  - eapply on_course_side; [symmetry; apply poll_next_persister_side|done].
Qed.

Lemma on_course_run a bound sch s :
  on_course a bound s -> on_course a bound (run sch s).
Proof.
  revert s; induction sch as [|act sch IH]; intros s H; simpl; [done|].
  by apply IH, on_course_step.
Qed.

Lemma on_course_drains a n s :
  on_course a n s ->
  persister (run (repeat Produce n ++ repeat Persist n) s) = None.
Proof.
  intros (Ha & Hlen & Hp). unfold run. rewrite fold_left_app.
  fold (run (repeat Produce n) s).
  rewrite length_app in Hlen. rewrite run_produce by lia.
  fold (run (repeat Persist n)).
  destruct Hp as [Hp|[Hp Hend]]; rewrite Hp.
  - by rewrite run_persist_finished.
  - apply run_persist_ends; [done|rewrite length_app; lia|done].
Qed.

End Progress.

(** ** The state [sendMessage] leaves behind *)

Section SendMessage.

Variables (stream : Stream) (input : Message) (rnd : string) (now : Z) (s : Sys).

Let s0 := sendMessage_on stream input rnd now s.

Lemma sendMessage_lookup_assistant :
  heap s0 !! assistant_ref s = Some (assistant_message rnd now).
Proof.
  unfold s0, sendMessage_on, assistant_ref; simpl.
  rewrite lookup_app_r by lia.
  replace (S (length (heap s)) - length (heap s)) with 1 by lia.
  reflexivity.
Qed.

Lemma sendMessage_heading_for :
  heading_for (assistant_ref s) s0
  = Some (consumeStream stream (assistant_message rnd now)).
Proof.
  unfold heading_for. rewrite sendMessage_lookup_assistant.
  unfold s0, sendMessage_on; simpl. by rewrite decide_True.
Qed.

Lemma events_has_end : existsb is_end (events stream) = true.
Proof.
  unfold events. rewrite existsb_app. apply orb_true_iff. right.
  by destruct (ending stream).
Qed.

Lemma sendMessage_on_course :
  on_course (assistant_ref s) (length (events stream)) s0.
Proof.
  unfold on_course, s0, sendMessage_on, assistant_ref; simpl.
  split; [rewrite length_app; simpl; lia|].
  split; [done|]. right. split; [done|apply events_has_end].
Qed.

End SendMessage.

(** C1. Aborting the client call after any number [k] of relayed chunks
    leaves the persister untouched: under every schedule the aborted run and
    the undisturbed run hold the same heap and the same persister state at
    every instant, the aborted relay has emitted at most [k] chunks, and
    from both runs the persister finishes with the assistant message equal
    to the result of consuming the whole source. *)
Theorem abort_leaves_persister_alone
    (stream : Stream) (input : Message) (rnd : string) (now : Z) (s : Sys)
    (k : nat) (sch : list Action) :
  let s0 := sendMessage_on stream input rnd now s in
  let a := assistant_ref s in
  let final := consumeStream stream (assistant_message rnd now) in
  let aborted := run_abort_after k sch s0 in
  let full := run sch s0 in
  heap aborted = heap full
  /\ persister aborted = persister full
  /\ length (relay_emitted aborted) <= k
  /\ persister (run (drain stream) aborted) = None
  /\ heap (run (drain stream) aborted) !! a = Some final
  /\ persister (run (drain stream) full) = None
  /\ heap (run (drain stream) full) !! a = Some final
  /\ status final = final_status (ending stream)
  /\ content final = joined (chunks stream).
Proof.
  intros s0 a final aborted full.
  assert (persister_side aborted = persister_side full) as Hside.
  { apply run_abort_after_persister_side, abort_after_persister_side. }
  assert (on_course a (length (events stream)) full) as Hfull.
  { apply on_course_run, sendMessage_on_course. }
  assert (on_course a (length (events stream)) aborted) as Hab.
  { by apply (on_course_side _ _ full). }
  assert (heading_for a full = Some final) as Hhead.
  { unfold full. rewrite heading_for_run. apply sendMessage_heading_for. }
  assert (heading_for a aborted = Some final) as Hhead'.
  { by rewrite (heading_for_side a _ _ Hside). }
  pose proof (on_course_drains _ _ _ Hfull) as Hdf.
  pose proof (on_course_drains _ _ _ Hab) as Hda.
  injection Hside as Hh _ _ Hp.
  split; [done|]. split; [done|]. split.
  { apply run_abort_after_bounded, abort_after_bounded. simpl. lia. }
  split; [done|]. split.
  { apply heading_for_finished; [|done]. by rewrite heading_for_run. }
  split; [done|]. split.
  { apply heading_for_finished; [|done]. by rewrite heading_for_run. }
  split.
  - unfold final. by rewrite consumeStream_unfold.
  - by apply content_consumeStream_joined.
Qed.

(** Scenario A with the client gone after one chunk: the relay is closed
    with that chunk, the message still reaches its full content. *)
Example abort_after_one_chunk :
  let s := run_abort_after 1
             [Produce; RelayNext; Produce; RelayNext; Produce; RelayNext;
              Produce; RelayNext; Persist; Persist; Persist; Persist]
             Scenario.sent in
  relay s = Some (mkRelay "assistant-abc" Aborted
                    [mkChunk "assistant-abc" streaming "a"])
  /\ heap s !! 1 = Some (mkMessage "assistant-abc" "a b c" assistant 5%Z done).
Proof. by vm_compute. Qed.

(** ** Live relay *)

Section Relay.

Lemma convert_values ws rest mid :
  convertReadableStreamToAsyncIterable (map Value ws ++ rest) mid
  = (map (mkChunk mid streaming) ws
       ++ fst (convertReadableStreamToAsyncIterable rest mid),
     snd (convertReadableStreamToAsyncIterable rest mid)).
Proof.
  induction ws as [|w ws IH]; simpl.
  - by destruct (convertReadableStreamToAsyncIterable rest mid).
  - by rewrite IH.
Qed.

Lemma convert_events stream mid :
  convertReadableStreamToAsyncIterable (events stream) mid
  = match ending stream with
    | Closed => (map (mkChunk mid streaming) (chunks stream)
                   ++ [mkChunk mid done ""], Returned)
    | Errored => (map (mkChunk mid streaming) (chunks stream), Threw)
    end.
Proof.
  unfold events. rewrite convert_values.
  destruct (ending stream); simpl; [done|by rewrite app_nil_r].
Qed.

Lemma enqueue_value q ev : ev <> Failure -> enqueue q ev = q ++ [ev].
Proof. by destruct ev. Qed.

Lemma fold_enqueue_unfailing src q :
  Failure ∉ src -> fold_left enqueue src q = q ++ src.
Proof.
  revert q; induction src as [|ev src IH]; intros q; simpl.
  - by rewrite app_nil_r.
  - intros [Hne Hni]%not_elem_of_cons.
    rewrite IH, enqueue_value, <- app_assoc by congruence. done.
Qed.

Lemma source_step s a :
  source (step s a) = source s \/ exists ev, source s = ev :: source (step s a).
Proof.
  destruct s as [h ms src b1 b2 p rl pl]. destruct a; simpl.
  - unfold produce; simpl. destruct src; simpl; eauto.
  - unfold persist; simpl. destruct p as [r|]; [|auto].
    destruct b1 as [|ev q]; [auto|].
    destruct (h !! r); [|auto]. destruct ev; auto.
  - unfold relay_next; simpl. destruct rl as [[mid [] out]|]; auto.
    destruct b2 as [|[w| |] q]; auto.
  - unfold abort; simpl. destruct rl as [[mid [] out]|]; auto.
  - unfold poll_next; simpl. destruct pl as [pp|]; [|auto].
    destruct (h !! poll_ref pp); auto.
Qed.

Lemma unfailing_step s a : unfailing s -> unfailing (step s a).
Proof.
  unfold unfailing. destruct (source_step s a) as [->|[ev ->]]; [done|].
  by intros [_ H]%not_elem_of_cons.
Qed.

Lemma unfailing_run sch s : unfailing s -> unfailing (run sch s).
Proof.
  revert s; induction sch as [|a sch IH]; intros s H; simpl; [done|].
  by apply IH, unfailing_step.
Qed.

Lemma unfailing_closed ws input rnd now s :
  unfailing (sendMessage_on (mkStream ws Closed) input rnd now s).
Proof.
  unfold unfailing, sendMessage_on, events; simpl.
  rewrite not_elem_of_app, not_elem_of_cons. split; [|split; [done|]].
  - by intros (w & Hw & _)%list_elem_of_In%in_map_iff.
  - apply not_elem_of_nil.
Qed.

Lemma relay_heading_produce s :
  unfailing s -> relay_heading (produce s) = relay_heading s.
Proof.
  destruct s as [h ms src b1 b2 p rl pl].
  unfold unfailing, produce, relay_heading; simpl.
  destruct src as [|ev rest]; simpl; [done|].
  intros [Hne _]%not_elem_of_cons.
  rewrite enqueue_value by congruence. by rewrite <- app_assoc.
Qed.

Lemma relay_heading_persist s : relay_heading (persist s) = relay_heading s.
Proof.
  destruct s as [h ms src b1 b2 p rl pl]. unfold persist, relay_heading; simpl.
  destruct p as [r|]; [|done].
  destruct b1 as [|ev q]; [done|].
  destruct (h !! r) as [m|]; [|done]. by destruct ev.
Qed.

Lemma relay_heading_relay_next s :
  relay_heading (relay_next s) = relay_heading s.
Proof.
  destruct s as [h ms src b1 b2 p rl pl]. unfold relay_next, relay_heading; simpl.
  destruct rl as [[mid [] out]|]; try done.
  destruct b2 as [|[w| |] q]; simpl; try done.
  - destruct (convertReadableStreamToAsyncIterable (q ++ src) mid) as [more st].
    by rewrite <- app_assoc.
  - by rewrite app_nil_r.
Qed.

Lemma relay_heading_poll_next s :
  relay_heading (poll_next s) = relay_heading s.
Proof.
  destruct s as [h ms src b1 b2 p rl pl]. unfold poll_next, relay_heading; simpl.
  destruct pl as [pp|]; [|done]. by destruct (h !! poll_ref pp).
Qed.

Lemma relay_heading_step s a :
  unfailing s -> a <> Abort -> relay_heading (step s a) = relay_heading s.
Proof.
  intros Hs Ha. destruct a; simpl; [| | |done|].
  - by apply relay_heading_produce.
  - apply relay_heading_persist.
  - apply relay_heading_relay_next.
  - apply relay_heading_poll_next.
Qed.

Lemma relay_heading_run sch s :
  unfailing s -> Abort ∉ sch -> relay_heading (run sch s) = relay_heading s.
Proof.
  revert s; induction sch as [|a sch IH]; intros s Hs Hno; simpl; [done|].
  apply not_elem_of_cons in Hno as [Hne Hno].
  unfold run in IH. rewrite IH by (done || by apply unfailing_step).
  by apply relay_heading_step.
Qed.

Lemma relay_emitted_heading s hd :
  relay_heading s = Some hd -> relay_emitted s `prefix_of` fst hd.
Proof.
  unfold relay_heading, relay_emitted.
  destruct (relay s) as [[mid [] out]|]; simpl; try (by intros [= <-]).
  destruct (convertReadableStreamToAsyncIterable _ _) as [more st].
  intros [= <-]. simpl. by apply prefix_app_r.
Qed.

Lemma relay_heading_stopped s hd :
  relay_heading s = Some hd -> relay_running s = false ->
  relay s = Some (mkRelay (match relay s with
                           | Some rl => relay_id rl
                           | None => ""
                           end) (snd hd) (fst hd)).
Proof.
  unfold relay_heading, relay_running.
  destruct (relay s) as [[mid [] out]|]; simpl; try done; by intros [= <-].
Qed.

Lemma abort_cases s :
  (relay_running s = true /\ relay_aborted (abort s) = true)
  \/ (relay_running s = false /\ abort s = s).
Proof.
  destruct s as [h ms src b1 b2 p rl pl].
  unfold relay_running, relay_aborted, abort; simpl.
  destruct rl as [[mid [] out]|]; simpl; auto.
Qed.

Lemma relay_aborted_step s a :
  relay_aborted s = true -> relay_aborted (step s a) = true.
Proof.
  destruct s as [h ms src b1 b2 p rl pl]. unfold relay_aborted; simpl.
  intros H. destruct a; simpl.
  - unfold produce; simpl. by destruct src.
  - unfold persist; simpl. destruct p as [r|]; [|done].
    destruct b1 as [|ev q]; [done|].
    destruct (h !! r); [|done]. by destruct ev.
  - unfold relay_next; simpl. by destruct rl as [[mid [] out]|].
  - unfold abort; simpl. by destruct rl as [[mid [] out]|].
  - unfold poll_next; simpl. destruct pl as [pp|]; [|done].
    by destruct (h !! poll_ref pp).
Qed.

Lemma relay_aborted_not_running s :
  relay_aborted s = true -> relay_running s = false.
Proof.
  unfold relay_aborted, relay_running.
  by destruct (relay s) as [[mid [] out]|].
Qed.

Lemma relay_on_course_step hd s a :
  unfailing s -> relay_on_course hd s -> relay_on_course hd (step s a).
Proof.
  intros Hs [Hpre [Hab|Hhd]].
  - split; [|left; by apply relay_aborted_step].
    destruct (step_emitted_stopped s a) as [-> _];
      [by apply relay_aborted_not_running|done].
  - destruct (decide (a = Abort)) as [->|Hne].
    + simpl. split; [by rewrite abort_relay_emitted|].
      destruct (abort_cases s) as [[_ H]|[_ H]]; [by left|right; by rewrite H].
    + pose proof (relay_heading_step s a Hs Hne) as E. rewrite Hhd in E.
      split; [|by right]. by apply (relay_emitted_heading _ hd).
Qed.

Lemma relay_on_course_run hd sch s :
  unfailing s -> relay_on_course hd s -> relay_on_course hd (run sch s).
Proof.
  revert s; induction sch as [|a sch IH]; intros s Hs H; simpl; [done|].
  apply IH; [by apply unfailing_step|by apply relay_on_course_step].
Qed.

(** Whatever the source holds, a step can only shorten what a relay is
    heading for: an error drops what its branch has queued, an abort what
    it has not emitted. *)
Lemma relay_heading_shrinks s a hd :
  relay_heading s = Some hd ->
  exists hd', relay_heading (step s a) = Some hd' /\ fst hd' `prefix_of` fst hd.
Proof.
  intros Hhd. destruct a.
  - destruct s as [h ms src b1 b2 p rl pl].
    unfold relay_heading in *; simpl in *. unfold produce; simpl.
    destruct src as [|ev rest]; simpl; [by exists hd; rewrite Hhd|].
    destruct rl as [[mid [] out]|]; simpl in *; try (by exists hd; rewrite Hhd).
    destruct ev as [w| |]; simpl.
    + rewrite <- app_assoc. simpl. by exists hd; rewrite Hhd.
    + rewrite <- app_assoc. simpl. by exists hd; rewrite Hhd.
    + exists (out ++ [], Threw). split; [done|].
      destruct (convertReadableStreamToAsyncIterable _ _) as [more st].
      injection Hhd as <-. simpl. rewrite app_nil_r. by apply prefix_app_r.
  - exists hd. simpl. by rewrite relay_heading_persist.
  - exists hd. simpl. by rewrite relay_heading_relay_next.
  - destruct s as [h ms src b1 b2 p rl pl].
    unfold relay_heading in *; simpl in *. unfold abort; simpl.
    destruct rl as [[mid [] out]|]; simpl in *; try (by exists hd; rewrite Hhd).
    exists (out, Aborted). split; [done|].
    destruct (convertReadableStreamToAsyncIterable _ _) as [more st].
    injection Hhd as <-. simpl. by apply prefix_app_r.
  - exists hd. simpl. by rewrite relay_heading_poll_next.
Qed.

Lemma relay_emitted_run sch s hd :
  relay_heading s = Some hd -> relay_emitted (run sch s) `prefix_of` fst hd.
Proof.
  revert s hd; induction sch as [|a sch IH]; intros s hd Hhd.
  - by apply relay_emitted_heading.
  - destruct (relay_heading_shrinks s a hd Hhd) as (hd' & Hhd' & Hpre).
    change (run (a :: sch) s) with (run sch (step s a)).
    etrans; [by apply (IH _ hd')|done].
Qed.

Lemma run_relay_stopped sch s :
  relay_running s = false ->
  relay_emitted (run sch s) = relay_emitted s /\ relay_running (run sch s) = false.
Proof.
  revert s; induction sch as [|a sch IH]; intros s H; simpl; [done|].
  destruct (step_emitted_stopped s a H) as [E H'].
  destruct (IH _ H') as [E' H'']. fold (run sch (step s a)).
  split; [congruence|done].
Qed.

(** A running relay whose branch holds the end of the stream leaves its
    loop. *)
Lemma run_relay_next_ends q : forall n h ms src b1 p mid out pl,
  existsb is_end q = true ->
  length q <= n ->
  relay_running (run (repeat RelayNext n)
                   (mkSys h ms src b1 q p (Some (mkRelay mid Running out)) pl))
  = false.
Proof.
  induction q as [|ev q IH]; intros n h ms src b1 p mid out pl Hend Hn;
    simpl in *; [done|].
  destruct n as [|n]; [lia|]. simpl.
  unfold relay_next at 1; simpl.
  destruct ev as [w| |]; simpl in *; unfold set_relay; simpl;
    fold (run (repeat RelayNext n)).
  - apply IH; [done|lia].
  - by apply run_relay_stopped.
  - by apply run_relay_stopped.
Qed.

Lemma convert_running_no_end rs mid :
  snd (convertReadableStreamToAsyncIterable rs mid) <> Running ->
  existsb is_end rs = true.
Proof.
  induction rs as [|[w| |] rs IH]; simpl; try done.
  destruct (convertReadableStreamToAsyncIterable rs mid) as [more st].
  simpl in *. done.
Qed.

End Relay.

Section RelayProgress.

Lemma relay_tag_step s a : relay_tag (step s a) = relay_tag s.
Proof.
  destruct s as [h ms src b1 b2 p rl pl]. unfold relay_tag.
  destruct a; simpl.
  - unfold produce; simpl. by destruct src.
  - unfold persist; simpl. destruct p as [r|]; [|done].
    destruct b1 as [|ev q]; [done|].
    destruct (h !! r); [|done]. by destruct ev.
  - unfold relay_next; simpl. destruct rl as [[mid [] out]|]; try done.
    by destruct b2 as [|[w| |] q].
  - unfold abort; simpl. by destruct rl as [[mid [] out]|].
  - unfold poll_next; simpl. destruct pl as [pp|]; [|done].
    by destruct (h !! poll_ref pp).
Qed.

Lemma relay_tag_run sch s : relay_tag (run sch s) = relay_tag s.
Proof.
  revert s; induction sch as [|a sch IH]; intros s; simpl; [done|].
  unfold run in IH. by rewrite IH, relay_tag_step.
Qed.

Lemma pending2_step s a :
  length (branch2 (step s a) ++ source (step s a))
  <= length (branch2 s ++ source s).
Proof.
  destruct s as [h ms src b1 b2 p rl pl].
  destruct a; simpl.
  - unfold produce; simpl. destruct src as [|ev rest]; simpl; [done|].
    destruct ev; simpl; rewrite ?length_app; simpl; lia.
  - unfold persist; simpl. destruct p as [r|]; [|done].
    destruct b1 as [|ev q]; [done|].
    destruct (h !! r); [|done]. by destruct ev.
  - unfold relay_next; simpl. destruct rl as [[mid [] out]|]; try done.
    destruct b2 as [|[w| |] q]; simpl; lia.
  - unfold abort; simpl. by destruct rl as [[mid [] out]|].
  - unfold poll_next; simpl. destruct pl as [pp|]; [|done].
    by destruct (h !! poll_ref pp).
Qed.

Lemma pending2_run sch s :
  length (branch2 (run sch s) ++ source (run sch s))
  <= length (branch2 s ++ source s).
Proof.
  revert s; induction sch as [|a sch IH]; intros s; simpl; [done|].
  fold (run sch (step s a)). pose proof (IH (step s a)).
  pose proof (pending2_step s a). lia.
Qed.

Lemma run_relay_next_stops n s hd :
  relay_heading s = Some hd -> snd hd <> Running ->
  source s = [] -> length (branch2 s) <= n ->
  relay_running (run (repeat RelayNext n) s) = false.
Proof.
  destruct s as [h ms src b1 b2 p rl pl]; simpl.
  intros Hhd Hst -> Hn.
  destruct rl as [[mid st out]|]; [|by apply run_relay_stopped].
  destruct st; try by apply run_relay_stopped.
  apply run_relay_next_ends; [|done].
  unfold relay_heading in Hhd; simpl in Hhd. rewrite app_nil_r in Hhd.
  apply (convert_running_no_end _ mid).
  destruct (convertReadableStreamToAsyncIterable b2 mid) as [more st].
  by injection Hhd as <-.
Qed.

(** On a source that does not fail, a relay that is never aborted and is
    left to itself ends as its stream says, having emitted everything. *)
Lemma relay_drains sch s hd n :
  unfailing s ->
  Abort ∉ sch ->
  relay_heading s = Some hd -> snd hd <> Running ->
  length (branch2 s ++ source s) <= n ->
  let s' := run (sch ++ repeat Produce n ++ repeat RelayNext n) s in
  relay_running s' = false /\ relay_heading s' = Some hd.
Proof.
  intros Hs Hno Hhd Hst Hn s'.
  pose proof (unfailing_run sch s Hs) as Hs'.
  assert (Abort ∉ repeat Produce n) as HnoP.
  { by intros H%list_elem_of_In%repeat_spec. }
  assert (Abort ∉ repeat RelayNext n) as HnoR.
  { by intros H%list_elem_of_In%repeat_spec. }
  split.
  - unfold s', run. rewrite !fold_left_app.
    fold (run sch s). fold (run (repeat Produce n) (run sch s)).
    fold (run (repeat RelayNext n)).
    pose proof (pending2_run sch s) as Hlen.
    rewrite !length_app in Hlen. rewrite length_app in Hn.
    assert (relay_heading (run (repeat Produce n) (run sch s)) = Some hd) as H.
    { by rewrite !relay_heading_run. }
    rewrite run_produce in H |- * by lia.
    rewrite fold_enqueue_unfailing in H |- * by done.
    apply (run_relay_next_stops _ _ hd); [done|done|done|].
    simpl. rewrite length_app. lia.
  - unfold s'. rewrite relay_heading_run; [done|done|].
    by rewrite !not_elem_of_app.
Qed.

End RelayProgress.

(** C4. The live relay started by [sendMessage] on a stream that closes
    re-emits the chunks in order, each with status [streaming] and tagged
    with the id of the assistant message, then one terminal chunk with
    status [done] and empty text, and nothing after it: under every schedule
    its output is a prefix of that sequence, a relay that has returned has
    emitted all of it, a relay that is not aborted does return, and a relay
    that has stopped emits nothing more. *)
Theorem live_relay_reemits_in_order
    (ws : list string) (input : Message) (rnd : string) (now : Z) (s : Sys)
    (sch : list Action) :
  let stream := mkStream ws Closed in
  let s0 := sendMessage_on stream input rnd now s in
  let mid := generateId (Some "assistant") rnd in
  let expected := map (mkChunk mid streaming) ws ++ [mkChunk mid done ""] in
  let finish := repeat Produce (S (length ws)) ++ repeat RelayNext (S (length ws)) in
  (id <$> heap s0 !! assistant_ref s) = Some mid
  /\ relay_emitted (run sch s0) `prefix_of` expected
  /\ (forall tag out, relay (run sch s0) = Some (mkRelay tag Returned out) ->
      tag = mid /\ out = expected)
  /\ (Abort ∉ sch ->
      relay (run (sch ++ finish) s0) = Some (mkRelay mid Returned expected))
  /\ (forall more, relay_running (run sch s0) = false ->
      relay_emitted (run (sch ++ more) s0) = relay_emitted (run sch s0)).
Proof.
  intros stream s0 mid expected finish.
  assert (relay_heading s0 = Some (expected, Returned)) as Hhd.
  { unfold s0, sendMessage_on, relay_heading; simpl.
    change (map Value ws ++ [Done]) with (events stream).
    rewrite convert_events. done. }
  assert (unfailing s0) as Hs0 by apply unfailing_closed.
  assert (relay_on_course (expected, Returned) (run sch s0)) as [Hpre Hc].
  { apply relay_on_course_run; [done|]. split; [|by right].
    unfold s0, relay_emitted; simpl. apply prefix_nil. }
  assert (relay_tag s0 = Some mid) as Htag by done.
  split. { unfold s0. by rewrite sendMessage_lookup_assistant. }
  split; [done|]. split.
  { intros tag out E. destruct Hc as [Hab|Hh].
    - unfold relay_aborted in Hab. by rewrite E in Hab.
    - pose proof (relay_tag_run sch s0) as Ht. rewrite Htag in Ht.
      unfold relay_tag in Ht. rewrite E in Ht. injection Ht as ->.
      unfold relay_heading in Hh. rewrite E in Hh. by injection Hh as ->. }
  split.
  { intros Hno.
    destruct (relay_drains sch s0 (expected, Returned) (S (length ws)))
      as [Hstop Hh]; [done|done|done|done| |].
    { unfold s0, sendMessage_on, events; simpl.
      rewrite length_app, length_map. simpl. lia. }
    pose proof (relay_heading_stopped _ _ Hh Hstop) as E.
    pose proof (relay_tag_run (sch ++ finish) s0) as Ht. rewrite Htag in Ht.
    unfold relay_tag in Ht. fold finish in E.
    destruct (relay (run (sch ++ finish) s0)) as [rl|]; [|done].
    simpl in Ht. injection Ht as Ht. by rewrite Ht in E. }
  intros more Hstop. unfold run. rewrite fold_left_app.
  by apply run_relay_stopped.
Qed.

Lemma live_relay_reemits_in_order_witness :
  relay (run ([Produce; RelayNext; Persist]
              ++ repeat Produce 4 ++ repeat RelayNext 4)
           (sendMessage_on (mkStream ["a"; "b"; "c"] Closed)
              (mkMessage "u1" "hi" user 0%Z done) "0.abc" 5%Z empty_server))
  = Some (mkRelay "assistant-abc" Returned
            [mkChunk "assistant-abc" streaming "a";
             mkChunk "assistant-abc" streaming "b";
             mkChunk "assistant-abc" streaming "c";
             mkChunk "assistant-abc" done ""]).
Proof.
  apply (live_relay_reemits_in_order ["a"; "b"; "c"]
           (mkMessage "u1" "hi" user 0%Z done) "0.abc" 5%Z empty_server
           [Produce; RelayNext; Persist]).
  vm_compute. intros H. by repeat (apply elem_of_cons in H as [H|H]; [done|]);
    apply elem_of_nil in H.
Defined.

(** ** Resume poller on a message that has reached a terminal status *)

Lemma poll_ref_resume m p : poll_ref (poll_resume m p) = poll_ref p.
Proof.
  unfold poll_resume, poll_from.
  destruct (poll_pc p) as [last|ws i|]; [| |done].
  - destruct (_ !! last); [done|]. by destruct (status m).
  - destruct (ws !! S i); [done|]. by destruct (status m).
Qed.

Section FrozenPoller.

Variable m : Message.
Hypothesis m_terminal : status m <> streaming.

Lemma poll_from_frozen p ws i :
  poll_out (poll_from m p ws i)
  = poll_out p ++ take 1 (map (mkChunk (id m) streaming) (drop i ws)
                            ++ [terminal_chunk m])
  /\ poll_remaining m (poll_from m p ws i)
     = drop 1 (map (mkChunk (id m) streaming) (drop i ws) ++ [terminal_chunk m]).
Proof.
  unfold poll_from.
  destruct (ws !! i) as [w|] eqn:E.
  - rewrite (drop_S _ _ _ E). simpl. done.
  - rewrite drop_ge by (by apply lookup_ge_None). simpl.
    unfold terminal_chunk. by destruct (status m).
Qed.

Lemma poll_resume_frozen p :
  poll_out (poll_resume m p) = poll_out p ++ take 1 (poll_remaining m p)
  /\ poll_remaining m (poll_resume m p) = drop 1 (poll_remaining m p).
Proof.
  unfold poll_resume. unfold poll_remaining at 1 3.
  destruct (poll_pc p) as [last|ws i|] eqn:E.
  - apply poll_from_frozen.
  - apply poll_from_frozen.
  - unfold poll_remaining. rewrite E. simpl. by rewrite app_nil_r.
Qed.

Lemma poll_times_frozen n p :
  poll_out (poll_times n m p) = poll_out p ++ take n (poll_remaining m p)
  /\ poll_remaining m (poll_times n m p) = drop n (poll_remaining m p).
Proof.
  revert p; induction n as [|n IH]; intros p; simpl.
  - by rewrite app_nil_r.
  - destruct (IH (poll_resume m p)) as [-> ->].
    destruct (poll_resume_frozen p) as [-> ->].
    rewrite <- app_assoc, drop_drop.
    split; [|done]. f_equal.
    destruct (poll_remaining m p); simpl; [by rewrite take_nil|by rewrite drop_0].
Qed.

Lemma poll_remaining_nil p :
  poll_remaining m p = [] <-> poll_pc p = PollReturned.
Proof.
  unfold poll_remaining. destruct (poll_pc p); split; try done.
  - by intros [_ ?]%app_eq_nil.
  - by intros [_ ?]%app_eq_nil.
Qed.

Lemma poll_ref_times n p : poll_ref (poll_times n m p) = poll_ref p.
Proof.
  revert p; induction n as [|n IH]; intros p; simpl; [done|].
  by rewrite IH, poll_ref_resume.
Qed.

End FrozenPoller.

Section FinishedGeneration.

(** With the persister gone, only [PollNext] moves the poller, and
    nothing writes to the heap. *)
Lemma step_finished s a :
  persister s = None ->
  heap (step s a) = heap s /\ persister (step s a) = None
  /\ (a <> PollNext -> poller (step s a) = poller s).
Proof.
  destruct s as [h ms src b1 b2 p rl pl]; simpl. intros ->.
  destruct a; simpl.
  - unfold produce; simpl. by destruct src.
  - done.
  - unfold relay_next; simpl. destruct rl as [[mid [] out]|]; try done.
    by destruct b2 as [|[w| |] q].
  - unfold abort; simpl. by destruct rl as [[mid [] out]|].
  - unfold poll_next; simpl. destruct pl as [pp|]; [|done].
    by destruct (h !! poll_ref pp).
Qed.

Lemma run_finished sch : forall s p m,
  persister s = None ->
  poller s = Some p ->
  heap s !! poll_ref p = Some m ->
  status m <> streaming ->
  poller (run sch s) = Some (poll_times (polls sch) m p)
  /\ heap (run sch s) = heap s /\ persister (run sch s) = None.
Proof.
  induction sch as [|a sch IH]; intros s p m Hp Hpl Hm Hst; [done|].
  change (run (a :: sch) s) with (run sch (step s a)).
  destruct (step_finished s a Hp) as (Hh & Hp' & Hpl').
  destruct (decide (a = PollNext)) as [->|Hne].
  - change (polls (PollNext :: sch)) with (S (polls sch)).
    assert (poller (step s PollNext) = Some (poll_resume m p)) as E.
    { simpl. unfold poll_next. by rewrite Hpl, Hm. }
    destruct (IH (step s PollNext) (poll_resume m p) m) as (-> & -> & ->);
      try done.
    by rewrite poll_ref_resume, Hh.
  - assert (polls (a :: sch) = polls sch) as ->.
    { unfold polls; simpl. by rewrite bool_decide_eq_false_2. }
    destruct (IH (step s a) p m) as (-> & -> & ->); try done.
    + by rewrite Hpl'.
    + by rewrite Hh.
Qed.

End FinishedGeneration.

(** ** Scenarios of the specification, as concrete states *)

Lemma forallb_take {A} (f : A -> bool) k l :
  forallb f l = true -> forallb f (take k l) = true.
Proof.
  revert k; induction l as [|x l IH]; intros [|k]; simpl; try done.
  intros [-> H]%andb_true_iff. by apply IH.
Qed.

Lemma find_message_id s i r :
  find_message s i = Some r ->
  exists m, r ∈ messages s /\ heap s !! r = Some m /\ id m = i.
Proof.
  unfold find_message. intros [Hin Hf]%find_some.
  destruct (heap s !! r) as [m|]; [|done].
  exists m. split; [by apply list_elem_of_In|].
  split; [done|]. by apply bool_decide_eq_true in Hf.
Qed.

(** C2. Resume completeness: for a message whose generation of the chunks
    [ws] has finished, a resume call reporting the first [k] of them yields
    the remaining chunks in order, each with status [streaming], and then
    one terminal chunk carrying the final status of the message: every
    resumption of the poller delivers the next item of that sequence, and
    after [length ws - k + 1] resumptions the poller has returned. *)
Theorem resume_yields_remaining_chunks
    (ws : list string) (k : nat) (input m : Message) (r : ref) (s : Sys)
    (sch : list Action) :
  forallb is_chunk ws = true ->
  k <= length ws ->
  content input = joined (take k ws) ->
  find_message s (id input) = Some r ->
  heap s !! r = Some m ->
  content m = joined ws ->
  status m <> streaming ->
  persister s = None ->
  let expected :=
    map (mkChunk (id input) streaming) (drop k ws)
      ++ [mkChunk (id input) (status m) ""] in
  exists s',
    resumeMessage input s = Ok s'
    /\ poll_emitted (run sch s') = take (polls sch) expected
    /\ (length ws - k < polls sch ->
        poll_emitted (run sch s') = expected
        /\ poll_returned (run sch s') = true)
    /\ length expected = S (length ws - k).
Proof.
  intros Hws Hk Hin Hfind Hm Hcm Hst Hp expected.
  destruct (find_message_id _ _ _ Hfind) as (m' & _ & Hm' & Hid).
  assert (m' = m) as -> by congruence.
  assert (length expected = S (length ws - k)) as Hlen.
  { unfold expected. rewrite length_app, length_map, length_drop. simpl. lia. }
  unfold resumeMessage. rewrite Hfind. eexists. split; [done|].
  set (p := pollMessage r (length (split_words (content input)))).
  set (s' := mkSys _ _ _ _ _ _ _ _).
  destruct (run_finished sch s' p m) as (Hpl & _ & _); try done.
  assert (poll_remaining m p = expected) as Hrem.
  { unfold poll_remaining, p; simpl.
    rewrite Hin, Hcm, !split_words_joined by (done || by apply forallb_take).
    rewrite length_take, Nat.min_l by done.
    unfold expected, terminal_chunk. by rewrite Hid. }
  destruct (poll_times_frozen m Hst (polls sch) p) as [Hout Hleft].
  rewrite Hrem in Hout, Hleft.
  unfold poll_emitted, poll_returned. rewrite Hpl, Hout. simpl.
  split; [done|]. split; [|done].
  intros Hn. split.
  - apply take_ge. lia.
  - rewrite drop_ge in Hleft by lia.
    apply poll_remaining_nil in Hleft.
    destruct (poll_times (polls sch) m p); simpl in *. by rewrite Hleft.
Qed.

Lemma resume_yields_remaining_chunks_witness :
  exists s',
    resumeMessage Scenario.client_copy Scenario.persisted = Ok s'
    /\ poll_emitted (run [PollNext; RelayNext; PollNext; PollNext] s')
       = [mkChunk "assistant-abc" streaming "b";
          mkChunk "assistant-abc" streaming "c";
          mkChunk "assistant-abc" done ""].
Proof.
  destruct (resume_yields_remaining_chunks ["a"; "b"; "c"] 1
              Scenario.client_copy
              (mkMessage "assistant-abc" "a b c" assistant 5%Z done) 1
              Scenario.persisted [PollNext; RelayNext; PollNext; PollNext])
    as (s' & Hres & Hout & _); try reflexivity.
  - simpl. lia.
  - discriminate.
  - exists s'. split; [exact Hres|exact Hout].
Defined.

(** ** Lookup by id *)

Section Lookup.

Lemma stored_ids_spec s i :
  i ∈ stored_ids s
  <-> exists r m, r ∈ messages s /\ heap s !! r = Some m /\ id m = i.
Proof.
  unfold stored_ids, listMessages. rewrite list_elem_of_In, in_map_iff. split.
  - intros (m & Hid & Hin). apply list_elem_of_In, list_elem_of_omap in Hin.
    destruct Hin as (r & Hr & Hm). by exists r, m.
  - intros (r & m & Hr & Hm & Hid). exists m. split; [done|].
    apply list_elem_of_In, list_elem_of_omap. by exists r.
Qed.

Lemma find_message_none s i : find_message s i = None <-> i ∉ stored_ids s.
Proof.
  rewrite stored_ids_spec. unfold find_message. split.
  - intros Hnone (r & m & Hr & Hm & Hid).
    apply list_elem_of_In in Hr.
    pose proof (find_none _ _ Hnone r Hr) as Hf. simpl in Hf.
    rewrite Hm in Hf. by apply bool_decide_eq_false in Hf.
  - intros Hno. destruct (find _ _) as [r|] eqn:E; [|done].
    destruct (find_message_id s i r E) as (m & Hr & Hm & Hid).
    destruct Hno. by exists r, m.
Qed.

End Lookup.

(** C6. [resumeMessage] fails with [NotFound] exactly when no message of
    the store carries the given id, and then the caller gets the failure
    and no chunk, whatever the schedule. *)
Theorem resume_not_found_iff (input : Message) (s : Sys) :
  (resumeMessage input s = Throw NotFound <-> id input ∉ stored_ids s)
  /\ (id input ∉ stored_ids s ->
      forall sch, resume_stream input s sch = Throw NotFound).
Proof.
  assert (resumeMessage input s = Throw NotFound <-> id input ∉ stored_ids s) as H.
  { rewrite <- find_message_none. unfold resumeMessage.
    destruct (find_message s (id input)); split; done. }
  split; [done|].
  intros Hno sch. unfold resume_stream. apply H in Hno. by rewrite Hno.
Qed.

Lemma resume_not_found_iff_witness :
  resume_stream (mkMessage "nonexistent" "" assistant 0%Z streaming)
    Scenario.persisted [PollNext; PollNext]
  = Throw NotFound.
Proof.
  apply (resume_not_found_iff (mkMessage "nonexistent" "" assistant 0%Z streaming)
           Scenario.persisted).
  vm_compute. intros H.
  repeat (apply elem_of_cons in H as [H|H]; [discriminate H|]).
  by apply elem_of_nil in H.
Defined.

(** ** Resume poller against a message that is still being written *)

Section AtMostOnce.

Lemma sorted_snoc l x :
  StronglySorted lt l -> Forall (fun j => j < x) l -> StronglySorted lt (l ++ [x]).
Proof.
  induction 1 as [|y l Hs IH Hy]; intros Hall; simpl.
  - repeat constructor.
  - apply Forall_cons in Hall as [Hyx Hall].
    constructor; [by apply IH|].
    apply Forall_app. split; [done|]. by constructor.
Qed.

Lemma sorted_NoDup l : StronglySorted lt l -> NoDup l.
Proof.
  induction 1 as [|y l Hs IH Hy]; constructor; [|done].
  intros Hin. rewrite Forall_forall in Hy. specialize (Hy _ Hin). lia.
Qed.

Lemma poll_streamed_snoc_streaming r pc out log mid w :
  poll_streamed (mkPoller r pc (out ++ [mkChunk mid streaming w]) log)
  = List.filter (fun c => bool_decide (chunk_status c = streaming)) out
      ++ [mkChunk mid streaming w].
Proof. unfold poll_streamed; simpl. by rewrite List.filter_app. Qed.

Lemma poll_streamed_snoc_terminal r pc out log mid st :
  st <> streaming ->
  poll_streamed (mkPoller r pc (out ++ [mkChunk mid st ""]) log)
  = List.filter (fun c => bool_decide (chunk_status c = streaming)) out.
Proof.
  intros Hst. unfold poll_streamed; simpl. rewrite List.filter_app; simpl.
  rewrite bool_decide_eq_false_2 by done. by rewrite app_nil_r.
Qed.

(** One pass through the [for] loop and the status checks keeps the
    agreement, provided the snapshot is a prefix of the content and the
    loop index lies above everything logged. *)
Lemma poll_from_ok m p words i :
  let W := split_words (content m) in
  StronglySorted lt (poll_log p) ->
  Forall2 (fun c j => W !! j = Some (text c)) (poll_streamed p) (poll_log p) ->
  Forall (fun j => j < i) (poll_log p) ->
  words `prefix_of` W ->
  (poll_log p = [] \/ i <= length words) ->
  poll_ok W (poll_from m p words i).
Proof.
  intros W Hs Hlink Hlt Hpre Hbound. unfold poll_from.
  destruct (words !! i) as [w|] eqn:E.
  - split; [by apply sorted_snoc|]. split.
    + rewrite poll_streamed_snoc_streaming. apply Forall2_app; [done|].
      constructor; [|done]. simpl. by apply (prefix_lookup_Some words).
    + unfold poll_pc_ok; simpl. split.
      * apply Forall_app. split; [|by repeat constructor].
        eapply Forall_impl; [done|]. simpl. lia.
      * split; [by apply lookup_lt_Some in E|done].
  - apply lookup_ge_None in E.
    assert (Forall (fun j => j < length words) (poll_log p)) as Hlt'.
    { destruct Hbound as [->|Hle]; [done|].
      eapply Forall_impl; [done|]. simpl. lia. }
    destruct (status m) eqn:Est.
    + split; [done|]. split; [done|]. unfold poll_pc_ok; simpl.
      split; [done|]. right. by apply prefix_length.
    + split; [done|]. split; [|done].
      by rewrite poll_streamed_snoc_terminal.
    + split; [done|]. split; [|done].
      by rewrite poll_streamed_snoc_terminal.
Qed.

Lemma poll_resume_ok m p :
  poll_ok (split_words (content m)) p ->
  poll_ok (split_words (content m)) (poll_resume m p).
Proof.
  intros (Hs & Hlink & Hpc). unfold poll_resume.
  unfold poll_pc_ok in Hpc.
  destruct (poll_pc p) as [last|ws i|] eqn:E.
  - destruct Hpc as [Hlt Hb]. by apply poll_from_ok.
  - destruct Hpc as (Hle & Hi & Hpre). apply poll_from_ok; try done.
    + eapply Forall_impl; [done|]. simpl. lia.
    + right. lia.
  - split; [done|]. split; [done|]. unfold poll_pc_ok. by rewrite E.
Qed.

Lemma poll_ok_grow W W' p : W `prefix_of` W' -> poll_ok W p -> poll_ok W' p.
Proof.
  intros Hpre (Hs & Hlink & Hpc). split; [done|]. split.
  - eapply Forall2_impl; [done|]. simpl. intros c i Hi.
    by apply (prefix_lookup_Some W).
  - unfold poll_pc_ok in *. destruct (poll_pc p) as [last|ws i|]; [| |done].
    + destruct Hpc as [Hlt [->|Hle]]; (split; [done|]); [by left|right].
      apply prefix_length in Hpre. lia.
    + destruct Hpc as (Hle & Hi & Hws). split; [done|]. split; [done|].
      by transitivity W.
Qed.

(** The only writes to a message append pieces to the list of its
    words. *)
Lemma step_words_grow s a r m :
  heap s !! r = Some m ->
  exists m', heap (step s a) !! r = Some m'
             /\ split_words (content m) `prefix_of` split_words (content m').
Proof.
  destruct s as [h ms src b1 b2 p rl pl]; simpl. intros Hm.
  destruct a; simpl.
  - unfold produce; simpl. destruct src; simpl; by exists m.
  - unfold persist; simpl. destruct p as [r'|]; [|by exists m].
    destruct b1 as [|ev q]; [by exists m|].
    destruct (h !! r') as [m1|] eqn:Hr'; [|by exists m].
    pose proof (lookup_lt_Some _ _ _ Hr') as Hlt.
    destruct (decide (r' = r)) as [->|Hne].
    + assert (m1 = m) as -> by congruence.
      destruct ev; unfold persist_with; cbn [heap];
        rewrite list_lookup_insert_eq by done;
        eexists; (split; [done|]); [|done|done].
      rewrite split_words_append_word. by apply prefix_app_r.
    + destruct ev; simpl; rewrite list_lookup_insert_ne by done; by exists m.
  - unfold relay_next; simpl. destruct rl as [[mid [] out]|]; try by exists m.
    destruct b2 as [|[w| |] q]; by exists m.
  - unfold abort; simpl. destruct rl as [[mid [] out]|]; by exists m.
  - unfold poll_next; simpl. destruct pl as [pp|]; [|by exists m].
    destruct (h !! poll_ref pp); by exists m.
Qed.

Lemma poller_step_other s a : a <> PollNext -> poller (step s a) = poller s.
Proof.
  destruct s as [h ms src b1 b2 p rl pl]; simpl. intros Hne.
  destruct a; simpl; [| | | |done].
  - unfold produce; simpl. by destruct src.
  - unfold persist; simpl. destruct p as [r|]; [|done].
    destruct b1 as [|ev q]; [done|].
    destruct (h !! r); [|done]. by destruct ev.
  - unfold relay_next; simpl. destruct rl as [[mid [] out]|]; try done.
    by destruct b2 as [|[w| |] q].
  - unfold abort; simpl. by destruct rl as [[mid [] out]|].
Qed.

Lemma poller_ok_step s a : poller_ok s -> poller_ok (step s a).
Proof.
  intros (p & m & Hp & Hm & Hok).
  destruct (decide (a = PollNext)) as [->|Hne].
  - exists (poll_resume m p), m. simpl. unfold poll_next. rewrite Hp, Hm. simpl.
    split; [done|]. split; [by rewrite poll_ref_resume|].
    by apply poll_resume_ok.
  - destruct (step_words_grow s a _ _ Hm) as (m' & Hm' & Hpre).
    exists p, m'. rewrite poller_step_other by done.
    split; [done|]. split; [done|]. by apply (poll_ok_grow _ _ _ Hpre).
Qed.

Lemma poller_ok_run sch s : poller_ok s -> poller_ok (run sch s).
Proof.
  revert s; induction sch as [|a sch IH]; intros s H; simpl; [done|].
  by apply IH, poller_ok_step.
Qed.

End AtMostOnce.

(** C7. At-most-once delivery within one resume call: whatever content the
    client reports and however source, persister, relay and poller are
    interleaved from then on, the indices at which the poller has emitted a
    chunk are strictly increasing, so none occurs twice, and every chunk
    emitted is the word of the server content at its index. *)
Theorem resume_emits_each_index_at_most_once
    (input : Message) (s s' : Sys) (sch : list Action) :
  resumeMessage input s = Ok s' ->
  exists p m,
    poller (run sch s') = Some p
    /\ heap (run sch s') !! poll_ref p = Some m
    /\ NoDup (poll_log p)
    /\ StronglySorted lt (poll_log p)
    /\ Forall2 (fun c i => split_words (content m) !! i = Some (text c))
         (poll_streamed p) (poll_log p).
Proof.
  unfold resumeMessage. intros Hres.
  destruct (find_message s (id input)) as [r|] eqn:Hfind; [|done].
  injection Hres as <-.
  destruct (find_message_id _ _ _ Hfind) as (m & _ & Hm & _).
  set (s' := mkSys _ _ _ _ _ _ _ _).
  assert (poller_ok s') as Hok.
  { exists (pollMessage r (length (split_words (content input)))), m.
    split; [done|]. split; [done|].
    split; [constructor|]. split; [constructor|].
    unfold poll_pc_ok; simpl. split; [constructor|by left]. }
  destruct (poller_ok_run sch s' Hok) as (p & m' & Hp & Hm' & Hs & Hlink & _).
  exists p, m'. repeat split; try done. by apply sorted_NoDup.
Qed.

Lemma resume_emits_each_index_at_most_once_witness :
  exists s' p,
    resumeMessage Scenario.client_copy Scenario.persisted = Ok s'
    /\ poller (run [PollNext; PollNext; PollNext] s') = Some p
    /\ NoDup (poll_log p).
Proof.
  eexists.
  destruct (resume_emits_each_index_at_most_once Scenario.client_copy
              Scenario.persisted _ [PollNext; PollNext; PollNext] eq_refl)
    as (p & m & Hp & _ & Hnd & _).
  exists p. split; [reflexivity|]. split; [exact Hp|exact Hnd].
Defined.

(** The status is read after the last [yield] of the [for] loop, the
    content before the first: a poller suspended at a [yield] while the
    persister appends the last chunk and finishes reports [done] without
    that chunk. *)
Example poll_in_flight_misses_chunk :
  let streamed := run [Produce; Produce; Persist; Persist] Scenario.sent in
  exists s',
    resumeMessage Scenario.client_copy streamed = Ok s'
    /\ (content <$> heap s' !! 1) = Some "a b"
    /\ poll_emitted
         (run [PollNext; Produce; Produce; Persist; Persist; PollNext; PollNext] s')
       = [mkChunk "assistant-abc" streaming "b"; mkChunk "assistant-abc" done ""]
    /\ (content <$> heap
          (run [PollNext; Produce; Produce; Persist; Persist; PollNext; PollNext] s')
          !! 1) = Some "a b c".
Proof. eexists. split; [reflexivity|]. by vm_compute. Qed.

(** ** Failure of the chunk source *)


(** The same failure with a relay that reads only after it: the chunk the
    branch had queued is gone, the relay throws with nothing, and the store
    still holds the chunk with status [error]. *)
Example late_relay_loses_queued_chunk :
  heap Scenario.failed_unread !! 1
  = Some (mkMessage "assistant-abc" "a" assistant 5%Z error)
  /\ relay Scenario.failed_unread = Some (mkRelay "assistant-abc" Threw []).
Proof. by vm_compute. Qed.

Section FailingSource.

Variables (a : ref) (final : Message).
Hypothesis final_error : status final = error.

Lemma failing_course_side s s' :
  persister_side s = persister_side s' ->
  failing_course a final s -> failing_course a final s'.
Proof.
  intros E [Hh Hp]. split; [by rewrite <- (heading_for_side a _ _ E)|].
  unfold persister_side in E. injection E as Eh _ _ Ep.
  by rewrite <- Eh, <- Ep.
Qed.

Lemma failing_course_step s act :
  failing_course a final s -> failing_course a final (step s act).
Proof.
  intros [Hh Hp]. split; [by rewrite heading_for_step|].
  destruct act; simpl.
  - destruct s as [h ms src b1 b2 p rl pl]. unfold produce; simpl in *.
    by destruct src.
  - destruct s as [h ms src b1 b2 p rl pl]. unfold persist; simpl in *.
    destruct Hp as [->|[-> (m & Hm & Hst & Hid)]]; [by left|].
    destruct b1 as [|ev q]; [right; eauto|].
    rewrite Hm. pose proof (lookup_lt_Some _ _ _ Hm) as Hlt.
    destruct ev; simpl; [right|by left|by left].
    split; [done|]. exists (append_word m word).
    by rewrite list_lookup_insert_eq.
  - apply (failing_course_side s); [|done].
    symmetry. apply relay_next_persister_side.
  - apply (failing_course_side s); [|done].
    symmetry. apply abort_persister_side.
  - apply (failing_course_side s); [|done].
    symmetry. apply poll_next_persister_side.
Qed.

Lemma failing_course_run sch s :
  failing_course a final s -> failing_course a final (run sch s).
Proof.
  revert s; induction sch as [|act sch IH]; intros s H; simpl; [done|].
  by apply IH, failing_course_step.
Qed.

Lemma failing_course_lookup s :
  failing_course a final s ->
  exists m, heap s !! a = Some m /\ id m = id final
            /\ (status m = streaming \/ m = final).
Proof.
  intros [Hh [Hp|[Hp (m & Hm & Hst & Hid)]]].
  - exists final. split; [by apply heading_for_finished|]. auto.
  - exists m. auto.
Qed.




End FailingSource.

Section ResumeCall.

Lemma resumeMessage_inv client s s' :
  resumeMessage client s = Ok s' ->
  persister_side s' = persister_side s
  /\ exists r m, heap s !! r = Some m /\ id m = id client
                 /\ poller s'
                    = Some (pollMessage r (length (split_words (content client)))).
Proof.
  unfold resumeMessage.
  destruct (find_message s (id client)) as [r|] eqn:Hfind; [|done].
  intros [= <-]. split; [done|].
  destruct (find_message_id _ _ _ Hfind) as (m & _ & Hm & Hid).
  by exists r, m.
Qed.

Lemma resumeMessage_poller_ok client s s' :
  resumeMessage client s = Ok s' -> poller_ok s'.
Proof.
  intros H. destruct (resumeMessage_inv _ _ _ H) as (Hside & r & m & Hm & _ & Hp).
  exists (pollMessage r (length (split_words (content client)))), m.
  split; [done|]. split.
  { unfold persister_side in Hside. injection Hside as -> _ _ _. done. }
  split; [constructor|]. split; [constructor|].
  unfold poll_pc_ok; simpl. split; [constructor|by left].
Qed.



End ResumeCall.

(** ** The relay of a failing generation *)

Section FailingRelay.

















End FailingRelay.



(** ** Counting the chunks of a reported content *)

Section Counting.

Lemma split_count_runs s :
  match JS.split JS.space s with
  | p :: ps =>
      length (List.filter JS.truthy ps) = count_runs is_space true s
      /\ length (List.filter JS.truthy (p :: ps)) = count_runs is_space false s
  | [] => False
  end.
Proof.
  induction s as [|c s IH]; simpl; [done|].
  change (Ascii.eqb c JS.space) with (is_space c). destruct (is_space c).
  - destruct (JS.split JS.space s) as [|p ps]; [done|]. by destruct IH.
  - destruct (JS.split JS.space s) as [|p ps]; [done|].
    destruct IH as [IH1 IH2]. simpl. by rewrite IH1.
Qed.

Lemma length_split_words s : length (split_words s) = space_word_count s.
Proof.
  unfold split_words, space_word_count.
  pose proof (split_count_runs s) as H.
  destruct (JS.split JS.space s) as [|p ps]; [done|]. by destruct H.
Qed.

Lemma count_runs_only_space b s :
  only_space_whitespace s = true ->
  count_runs is_whitespace b s = count_runs is_space b s.
Proof.
  revert b; induction s as [|c s IH]; intros b; simpl; [done|].
  intros [Hc Hs]%andb_true_iff.
  assert (is_whitespace c = is_space c) as ->.
  { destruct (is_space c) eqn:E.
    - unfold is_space in E. apply Ascii.eqb_eq in E. subst c. reflexivity.
    - simpl in Hc. by apply negb_true_iff in Hc. }
  by rewrite !IH.
Qed.

End Counting.

Lemma tab_is_not_a_chunk_separator :
  length (split_words Scenario.tabbed) = 1
  /\ spec_whitespace_word_count Scenario.tabbed = 2
  /\ length (split_words Scenario.tabbed) <> spec_whitespace_word_count Scenario.tabbed.
Proof. by vm_compute. Qed.

(** C8 (as the code has it). [resumeMessage] starts the poller at the
    number of pieces that [split(` `).filter(Boolean)] finds in the reported
    content, the very rule [pollMessage] applies to the server content:
    that is the number of words delimited by spaces (U+0020); it is the
    number of whitespace-delimited words when the content has no other
    whitespace, and the number of chunks for a content made of chunks. *)
Theorem resume_counts_space_delimited_words (input : Message) (s s' : Sys) :
  resumeMessage input s = Ok s' ->
  (exists r, poller s' = Some (pollMessage r (length (split_words (content input)))))
  /\ length (split_words (content input)) = space_word_count (content input)
  /\ (only_space_whitespace (content input) = true ->
      length (split_words (content input))
      = spec_whitespace_word_count (content input))
  /\ (forall ws, forallb is_chunk ws = true -> content input = joined ws ->
      length (split_words (content input)) = length ws).
Proof.
  intros (_ & r & m & _ & _ & Hp)%resumeMessage_inv.
  split; [by exists r|].
  split; [apply length_split_words|]. split.
  - intros Ho. rewrite length_split_words.
    unfold spec_whitespace_word_count. by rewrite count_runs_only_space.
  - intros ws Hws ->. by rewrite split_words_joined.
Qed.

Lemma resume_counts_space_delimited_words_witness :
  exists s',
    resumeMessage Scenario.client_copy Scenario.persisted = Ok s'
    /\ poller s' = Some (pollMessage 1 1)
    /\ spec_whitespace_word_count (content Scenario.client_copy) = 1.
Proof.
  eexists. split; [reflexivity|].
  destruct (resume_counts_space_delimited_words Scenario.client_copy
              Scenario.persisted _ eq_refl) as ([r Hr] & _ & Hw & _).
  split; [reflexivity|].
  rewrite <- Hw; reflexivity.
Defined.

(** ** Identifiers *)

Section Identifiers.

Lemma append_inj p x y : p +:+ x = p +:+ y -> x = y.
Proof. induction p as [|c p IH]; simpl; [done|]. intros [= H]. auto. Qed.

Lemma generateId_window prefix r1 r2 :
  generateId prefix r1 = generateId prefix r2
  <-> JS.substring 2 15 r1 = JS.substring 2 15 r2.
Proof.
  unfold generateId. split.
  - destruct prefix as [p|]; [|done].
    destruct (JS.truthy p); [|done].
    by intros H%append_inj%append_inj.
  - by intros ->.
Qed.

Lemma omap_lookup_app (h h' : list Message) rs :
  Forall (fun r => r < length h) rs ->
  omap (fun r => (h ++ h') !! r) rs = omap (fun r => h !! r) rs.
Proof.
  intros Hwf. apply list_omap_ext, Forall_Forall2_diag.
  eapply Forall_impl; [done|]. simpl. intros r Hr. by apply lookup_app_l.
Qed.

Lemma stored_ids_sendMessage stream input rnd now s :
  store_wf s ->
  stored_ids (sendMessage_on stream input rnd now s)
  = stored_ids s ++ [id input; generateId (Some "assistant") rnd].
Proof.
  intros Hwf. unfold stored_ids, listMessages, sendMessage_on; simpl.
  rewrite omap_app, omap_lookup_app by done. rewrite map_app. f_equal.
  simpl. rewrite lookup_app_r by lia. rewrite Nat.sub_diag. simpl.
  rewrite lookup_app_r by lia.
  replace (S (length (heap s)) - length (heap s)) with 1 by lia.
  reflexivity.
Qed.

End Identifiers.

Lemma generated_ids_collide :
  let r1 := "0.0000abcdefghijk" in
  let r2 := "0.0000abcdefghijz" in
  let s1 := sendMessage 0 (mkMessage "user-1" "hi" user 1%Z done) r1 2%Z empty_server in
  let s1' := run (drain (completion 0)) s1 in
  let s2 := sendMessage 0 (mkMessage "user-2" "ho" user 3%Z done) r2 4%Z s1' in
  r1 <> r2
  /\ persister s1' = None
  /\ generateId (Some "assistant") r1 = generateId (Some "assistant") r2
  /\ stored_ids s2
     = ["user-1"; "assistant-0000abcdefghi"; "user-2"; "assistant-0000abcdefghi"]
  /\ ~ NoDup (stored_ids s2).
Proof.
  split; [discriminate|]. split; [reflexivity|].
  split; [reflexivity|]. split; [reflexivity|].
  vm_compute. intros H.
  apply NoDup_cons in H as [_ H]. apply NoDup_cons in H as [H _].
  apply H. apply elem_of_cons. right. apply elem_of_cons. by left.
Qed.

(** C9 (as the code has it). The generated id is the prefix followed by
    characters 2 to 14 of the base-36 rendering of one random draw: two
    calls return different ids exactly when those windows differ, and
    nothing is checked against the store.  After [sendMessage] the store has
    no id twice exactly when it had none twice before, the id supplied by
    the client and the generated id are both new to it, and the two
    differ. *)
Theorem generated_ids_differ_iff_draws_differ
    (prefix : option string) (r1 r2 : string)
    (stream : Stream) (input : Message) (now : Z) (s : Sys) :
  store_wf s ->
  let gid := generateId (Some "assistant") r1 in
  (generateId prefix r1 <> generateId prefix r2
   <-> JS.substring 2 15 r1 <> JS.substring 2 15 r2)
  /\ stored_ids (sendMessage_on stream input r1 now s)
     = stored_ids s ++ [id input; gid]
  /\ (NoDup (stored_ids (sendMessage_on stream input r1 now s))
      <-> NoDup (stored_ids s)
          /\ (id input ∉ stored_ids s) /\ (gid ∉ stored_ids s) /\ gid <> id input)
  /\ store_wf (sendMessage_on stream input r1 now s).
Proof.
  intros Hwf gid.
  split; [by rewrite generateId_window|].
  split; [by apply stored_ids_sendMessage|].
  split.
  - rewrite stored_ids_sendMessage by done. fold gid.
    rewrite NoDup_app. split.
    + intros (Hnd & Hdisj & Hnew). repeat split; [done| | |].
      * intros Hin. apply (Hdisj _ Hin). apply elem_of_cons. by left.
      * intros Hin. apply (Hdisj _ Hin). apply elem_of_cons. right.
        apply elem_of_cons. by left.
      * intros E. apply NoDup_cons in Hnew as [Hnew _]. apply Hnew.
        apply elem_of_cons. left. by symmetry.
    + intros (Hnd & Hi & Hg & Hne). repeat split; [done| |].
      * intros x Hx [->|[->|[]%elem_of_nil]%elem_of_cons]%elem_of_cons; done.
      * apply NoDup_cons. split.
        { intros [E|[]%elem_of_nil]%elem_of_cons. by apply Hne. }
        apply NoDup_singleton.
  - unfold store_wf, sendMessage_on in *; simpl.
    rewrite Forall_app, !length_app. simpl. split.
    + eapply Forall_impl; [done|]. simpl. lia.
    + repeat constructor; lia.
Qed.

Lemma generated_ids_differ_iff_draws_differ_witness :
  generateId (Some "assistant") "0.abc" <> generateId (Some "assistant") "0.abd"
  /\ NoDup (stored_ids Scenario.sent).
Proof.
  destruct (generated_ids_differ_iff_draws_differ (Some "assistant") "0.abc" "0.abd"
              (mkStream ["a"; "b"; "c"] Closed) Scenario.u1 5%Z empty_server)
    as (Hids & _ & Hnd & _); [constructor|].
  split.
  - apply Hids. discriminate.
  - apply Hnd. split; [constructor|].
    split; [apply not_elem_of_nil|]. split; [apply not_elem_of_nil|discriminate].
Defined.


(** * Further properties of the router *)

(** ** [clearMessages] and [listMessages] *)

Section Store.

Lemma step_clearMessages s a : step (clearMessages s) a = clearMessages (step s a).
Proof.
  destruct s as [h ms src b1 b2 p rl pl]. destruct a; simpl.
  - unfold produce, clearMessages; simpl. by destruct src.
  - unfold persist, clearMessages; simpl. destruct p as [r|]; [|done].
    destruct b1 as [|ev q]; [done|].
    destruct (h !! r); [|done]. by destruct ev.
  - unfold relay_next, clearMessages; simpl.
    destruct rl as [[mid [] out]|]; try done.
    by destruct b2 as [|[w| |] q].
  - unfold abort, clearMessages; simpl. by destruct rl as [[mid [] out]|].
  - unfold poll_next, clearMessages; simpl. destruct pl as [pp|]; [|done].
    by destruct (h !! poll_ref pp).
Qed.

Lemma run_clearMessages sch s : run sch (clearMessages s) = clearMessages (run sch s).
Proof.
  revert s; induction sch as [|a sch IH]; intros s; [done|].
  change (run (a :: sch) (clearMessages s)) with (run sch (step (clearMessages s) a)).
  by rewrite step_clearMessages, IH.
Qed.

Lemma messages_step s a : messages (step s a) = messages s.
Proof.
  destruct s as [h ms src b1 b2 p rl pl]. destruct a; simpl.
  - unfold produce; simpl. by destruct src.
  - unfold persist; simpl. destruct p as [r|]; [|done].
    destruct b1 as [|ev q]; [done|].
    destruct (h !! r); [|done]. by destruct ev.
  - unfold relay_next; simpl. destruct rl as [[mid [] out]|]; try done.
    by destruct b2 as [|[w| |] q].
  - unfold abort; simpl. by destruct rl as [[mid [] out]|].
  - unfold poll_next; simpl. destruct pl as [pp|]; [|done].
    by destruct (h !! poll_ref pp).
Qed.

Lemma messages_run sch s : messages (run sch s) = messages s.
Proof.
  revert s; induction sch as [|a sch IH]; intros s; [done|].
  change (run (a :: sch) s) with (run sch (step s a)).
  by rewrite IH, messages_step.
Qed.

Lemma length_heap_step s a : length (heap (step s a)) = length (heap s).
Proof.
  destruct s as [h ms src b1 b2 p rl pl]. destruct a; simpl.
  - unfold produce; simpl. by destruct src.
  - unfold persist; simpl. destruct p as [r|]; [|done].
    destruct b1 as [|ev q]; [done|].
    destruct (h !! r); [|done]. destruct ev; simpl; by rewrite length_insert.
  - unfold relay_next; simpl. destruct rl as [[mid [] out]|]; try done.
    by destruct b2 as [|[w| |] q].
  - unfold abort; simpl. by destruct rl as [[mid [] out]|].
  - unfold poll_next; simpl. destruct pl as [pp|]; [|done].
    by destruct (h !! poll_ref pp).
Qed.

(** A step writes to no message but the one of the running persister. *)
Lemma heap_step_other s a r :
  persister s <> Some r -> heap (step s a) !! r = heap s !! r.
Proof.
  destruct s as [h ms src b1 b2 p rl pl]; simpl. intros Hp. destruct a; simpl.
  - unfold produce; simpl. by destruct src.
  - unfold persist; simpl. destruct p as [r'|]; [|done].
    destruct b1 as [|ev q]; [done|].
    destruct (h !! r'); [|done].
    assert (r' <> r) by congruence.
    destruct ev; simpl; by rewrite list_lookup_insert_ne.
  - unfold relay_next; simpl. destruct rl as [[mid [] out]|]; try done.
    by destruct b2 as [|[w| |] q].
  - unfold abort; simpl. by destruct rl as [[mid [] out]|].
  - unfold poll_next; simpl. destruct pl as [pp|]; [|done].
    by destruct (h !! poll_ref pp).
Qed.

Lemma persister_step_cases s a :
  persister (step s a) = persister s \/ persister (step s a) = None.
Proof.
  destruct s as [h ms src b1 b2 p rl pl]. destruct a; simpl.
  - unfold produce; simpl. destruct src; auto.
  - unfold persist; simpl. destruct p as [r|]; [|auto].
    destruct b1 as [|ev q]; [auto|].
    destruct (h !! r); [|auto]. destruct ev; auto.
  - unfold relay_next; simpl. destruct rl as [[mid [] out]|]; auto.
    destruct b2 as [|[w| |] q]; auto.
  - unfold abort; simpl. destruct rl as [[mid [] out]|]; auto.
  - unfold poll_next; simpl. destruct pl as [pp|]; [|auto].
    destruct (h !! poll_ref pp); auto.
Qed.

Lemma heap_run_other sch s r :
  persister s <> Some r -> heap (run sch s) !! r = heap s !! r.
Proof.
  revert s; induction sch as [|a sch IH]; intros s Hp; [done|].
  change (run (a :: sch) s) with (run sch (step s a)).
  rewrite IH; [by apply heap_step_other|].
  destruct (persister_step_cases s a) as [-> | ->]; done.
Qed.

End Store.

(** X1. [clearMessages] in the middle of a generation: from then on
    [listMessages] is empty and every [resumeMessage] fails with
    [NotFound], while the heap evolves exactly as it would have without the
    call and the persister still finishes its message, now unreachable from
    the store. *)
Theorem clearMessages_orphans_generation
    (stream : Stream) (input client : Message) (rnd : string) (now : Z) (s : Sys)
    (before after : list Action) :
  let s0 := sendMessage_on stream input rnd now s in
  let cleared := clearMessages (run before s0) in
  let finished := run (after ++ drain stream) cleared in
  listMessages (run after cleared) = []
  /\ resumeMessage client (run after cleared) = Throw NotFound
  /\ heap (run after cleared) = heap (run (before ++ after) s0)
  /\ persister finished = None
  /\ heap finished !! assistant_ref s
     = Some (consumeStream stream (assistant_message rnd now)).
Proof.
  intros s0 cleared finished.
  assert (run after cleared = clearMessages (run (before ++ after) s0)) as E.
  { unfold cleared. rewrite run_clearMessages. unfold run.
    by rewrite fold_left_app. }
  assert (finished
          = clearMessages (run (drain stream) (run (before ++ after) s0))) as E'.
  { unfold finished, cleared. rewrite run_clearMessages. unfold run.
    by rewrite !fold_left_app. }
  assert (on_course (assistant_ref s) (length (events stream))
            (run (before ++ after) s0)) as Hc.
  { apply on_course_run, sendMessage_on_course. }
  rewrite E, E'. split; [done|]. split; [done|]. split; [done|].
  simpl. split; [by apply (on_course_drains (assistant_ref s))|].
  apply heading_for_finished; [|by apply (on_course_drains (assistant_ref s))].
  rewrite !heading_for_run. apply sendMessage_heading_for.
Qed.

(** X2. [listMessages] during and after a generation that starts on a
    server where no earlier generation is in flight (no persister runs and
    no stored message is still [streaming]): the store lists what it listed
    before, then the user message as it was sent, then the assistant message
    in its current state; once the persister has been given its turns the
    assistant entry is the result of consuming the whole source.  (While an
    earlier generation is in flight its message keeps changing in the
    program; the state follows one persister only, see [sendMessage_on].) *)
Theorem listMessages_follows_generation
    (stream : Stream) (input : Message) (rnd : string) (now : Z) (s : Sys)
    (sch : list Action) :
  store_wf s ->
  settled s ->
  let s0 := sendMessage_on stream input rnd now s in
  (exists m, heap (run sch s0) !! assistant_ref s = Some m
             /\ listMessages (run sch s0) = listMessages s ++ [input; m])
  /\ listMessages (run (sch ++ drain stream) s0)
     = listMessages s
         ++ [input; consumeStream stream (assistant_message rnd now)].
Proof.
  intros Hwf _ s0.
  assert (forall sch' m, heap (run sch' s0) !! assistant_ref s = Some m ->
            listMessages (run sch' s0) = listMessages s ++ [input; m]) as Hlist.
  { intros sch' m Hm. unfold listMessages. rewrite messages_run.
    unfold s0 at 2, sendMessage_on; simpl. rewrite omap_app. f_equal.
    - apply list_omap_ext, Forall_Forall2_diag.
      eapply Forall_impl; [exact Hwf|]. simpl. intros r Hr.
      rewrite heap_run_other.
      + unfold s0, sendMessage_on; simpl. by apply lookup_app_l.
      + unfold s0, sendMessage_on; simpl. intros [= H]. lia.
    - simpl. rewrite heap_run_other.
      + fold (assistant_ref s). rewrite Hm.
        unfold s0, sendMessage_on; simpl.
        rewrite lookup_app_r by lia. by rewrite Nat.sub_diag.
      + unfold s0, sendMessage_on; simpl. intros [= H]. lia. }
  split.
  - assert (on_course (assistant_ref s) (length (events stream)) (run sch s0))
      as (Ha & _).
    { apply on_course_run, sendMessage_on_course. }
    destruct (lookup_lt_is_Some_2 _ _ Ha) as [m Hm].
    exists m. split; [done|]. by apply Hlist.
  - apply Hlist. apply heading_for_finished.
    + rewrite heading_for_run. apply sendMessage_heading_for.
    + unfold run. rewrite fold_left_app.
      apply (on_course_drains (assistant_ref s)).
      apply on_course_run, sendMessage_on_course.
Qed.

Lemma listMessages_follows_generation_witness :
  listMessages
    (run ([Produce; RelayNext] ++ drain (mkStream ["d"; "e"] Closed))
       (sendMessage_on (mkStream ["d"; "e"] Closed)
          (mkMessage "u2" "more" user 7%Z done) "0.def" 8%Z Scenario.persisted))
  = [Scenario.u1; mkMessage "assistant-abc" "a b c" assistant 5%Z done;
     mkMessage "u2" "more" user 7%Z done;
     mkMessage "assistant-def" "d e" assistant 8%Z done].
Proof.
  apply (listMessages_follows_generation (mkStream ["d"; "e"] Closed)
           (mkMessage "u2" "more" user 7%Z done) "0.def" 8%Z Scenario.persisted
           [Produce; RelayNext]).
  - repeat constructor.
  - split; [reflexivity|]. by repeat constructor.
Defined.


(** ** What a resume call reads and what it leaves alone *)

Section ResumeReads.

Lemma find_first {A} (f : A -> bool) l x :
  find f l = Some x ->
  exists l1 l2, l = l1 ++ x :: l2 /\ f x = true /\ Forall (fun y => f y = false) l1.
Proof.
  induction l as [|y l IH]; simpl; [done|].
  destruct (f y) eqn:E.
  - intros [= ->]. exists [], l. by repeat split.
  - intros (l1 & l2 & -> & Hx & Hl1)%IH.
    exists (y :: l1), l2. repeat split; [done|by constructor].
Qed.

Lemma without_poller_step s a :
  without_poller (step s a)
  = if decide (a = PollNext) then without_poller s
    else step (without_poller s) a.
Proof.
  destruct s as [h ms src b1 b2 p rl pl]. destruct a; simpl.
  - unfold produce, without_poller; simpl. by destruct src.
  - unfold persist, without_poller; simpl. destruct p as [r|]; [|done].
    destruct b1 as [|ev q]; [done|].
    destruct (h !! r); [|done]. by destruct ev.
  - unfold relay_next, without_poller; simpl.
    destruct rl as [[mid [] out]|]; try done.
    by destruct b2 as [|[w| |] q].
  - unfold abort, without_poller; simpl. by destruct rl as [[mid [] out]|].
  - unfold poll_next, without_poller; simpl. destruct pl as [pp|]; [|done].
    by destruct (h !! poll_ref pp).
Qed.

Lemma without_poller_run sch s s' :
  without_poller s = without_poller s' ->
  without_poller (run sch s) = without_poller (run sch s').
Proof.
  revert s s'; induction sch as [|a sch IH]; intros s s' E; [done|].
  change (run (a :: sch) s) with (run sch (step s a)).
  change (run (a :: sch) s') with (run sch (step s' a)).
  apply IH. rewrite !without_poller_step. by rewrite E.
Qed.

End ResumeReads.

(** X3. Which message a resume call serves: the first one in store order
    that carries the reported id; a later message with the same id is never
    reached. *)
Theorem resume_serves_first_match (input : Message) (s s' : Sys) :
  resumeMessage input s = Ok s' ->
  exists l1 r l2 m,
    messages s = l1 ++ r :: l2
    /\ heap s !! r = Some m /\ id m = id input
    /\ (forall r' m', r' ∈ l1 -> heap s !! r' = Some m' -> id m' <> id input)
    /\ poller s' = Some (pollMessage r (length (split_words (content input)))).
Proof.
  unfold resumeMessage, find_message.
  destruct (find _ _) as [r|] eqn:Hfind; [|done]. intros [= <-].
  destruct (find_first _ _ _ Hfind) as (l1 & l2 & Hms & Hr & Hl1).
  destruct (heap s !! r) as [m|] eqn:Hm; [|done].
  exists l1, r, l2, m. split; [done|]. split; [done|].
  split; [by apply bool_decide_eq_true in Hr|]. split; [|done].
  intros r' m' Hin Hm' Hid. rewrite Forall_forall in Hl1.
  specialize (Hl1 r' Hin). simpl in Hl1. rewrite Hm' in Hl1.
  by apply bool_decide_eq_false in Hl1.
Qed.

Lemma resume_serves_first_match_witness :
  exists s' r,
    resumeMessage Scenario.client_copy Scenario.persisted = Ok s'
    /\ poller s'
       = Some (pollMessage r
                 (length (split_words (content Scenario.client_copy)))).
Proof.
  eexists.
  destruct (resume_serves_first_match Scenario.client_copy Scenario.persisted _
              eq_refl) as (l1 & r & l2 & m & _ & _ & _ & _ & Hp).
  exists r. split; [reflexivity|exact Hp].
Defined.

(** X4. A resume call only reads: under every schedule the heap, the
    store, the source, both branches, the persister and the relay are what
    they would be without the call; no second persister is started and no
    content is written. *)
Theorem resume_only_reads (input : Message) (s s' : Sys) (sch : list Action) :
  resumeMessage input s = Ok s' ->
  without_poller (run sch s') = without_poller (run sch s).
Proof.
  unfold resumeMessage.
  destruct (find_message s (id input)); [|done]. intros [= <-].
  by apply without_poller_run.
Qed.

Lemma resume_only_reads_witness :
  exists s',
    resumeMessage Scenario.client_copy Scenario.sent = Ok s'
    /\ heap (run [Produce; PollNext; Persist; PollNext] s')
       = heap (run [Produce; PollNext; Persist; PollNext] Scenario.sent).
Proof.
  eexists. split; [reflexivity|].
  exact (f_equal heap
           (resume_only_reads Scenario.client_copy Scenario.sent _
              [Produce; PollNext; Persist; PollNext] eq_refl)).
Defined.


(** ** Polling a message that is still [streaming] *)

Section StreamingPoller.

Lemma run_quiet sch : forall s p m,
  persister s = None ->
  poller s = Some p ->
  heap s !! poll_ref p = Some m ->
  poller (run sch s) = Some (poll_times (polls sch) m p).
Proof.
  induction sch as [|a sch IH]; intros s p m Hp Hpl Hm; [done|].
  change (run (a :: sch) s) with (run sch (step s a)).
  destruct (step_finished s a Hp) as (Hh & Hp' & Hpl').
  destruct (decide (a = PollNext)) as [->|Hne].
  - change (polls (PollNext :: sch)) with (S (polls sch)).
    apply IH; [done| |].
    + simpl. unfold poll_next. by rewrite Hpl, Hm.
    + by rewrite poll_ref_resume, Hh.
  - assert (polls (a :: sch) = polls sch) as ->.
    { unfold polls; simpl. by rewrite bool_decide_eq_false_2. }
    apply IH; [done|by rewrite Hpl'|by rewrite Hh].
Qed.

Variable m : Message.
Hypothesis m_streaming : status m = streaming.

Lemma poll_from_streaming p j :
  let W := split_words (content m) in
  let p' := poll_from m p W j in
  poll_out p' = poll_out p ++ map (mkChunk (id m) streaming) (take 1 (drop j W))
  /\ poll_pending m p' = drop 1 (drop j W)
  /\ poll_pc p' <> PollReturned
  /\ poll_snapshot_current m p'.
Proof.
  intros W p'. unfold p', poll_from. destruct (W !! j) as [w|] eqn:E.
  - rewrite (drop_S _ _ _ E). simpl. rewrite drop_0. done.
  - apply lookup_ge_None in E. rewrite m_streaming.
    rewrite (drop_ge W j) by done. simpl. rewrite app_nil_r.
    split; [done|]. split; [|done].
    unfold poll_pending; simpl. by apply drop_ge.
Qed.

Lemma poll_resume_streaming p :
  poll_pc p <> PollReturned -> poll_snapshot_current m p ->
  let p' := poll_resume m p in
  poll_out p'
  = poll_out p ++ map (mkChunk (id m) streaming) (take 1 (poll_pending m p))
  /\ poll_pending m p' = drop 1 (poll_pending m p)
  /\ poll_pc p' <> PollReturned
  /\ poll_snapshot_current m p'.
Proof.
  intros Hpc Hsnap. unfold poll_resume, poll_pending at 1 3.
  unfold poll_snapshot_current in Hsnap.
  destruct (poll_pc p) as [last|ws i|] eqn:E; [| |done].
  - apply poll_from_streaming.
  - subst ws. apply poll_from_streaming.
Qed.

Lemma poll_times_streaming n : forall p,
  poll_pc p <> PollReturned -> poll_snapshot_current m p ->
  poll_out (poll_times n m p)
  = poll_out p ++ map (mkChunk (id m) streaming) (take n (poll_pending m p))
  /\ poll_pc (poll_times n m p) <> PollReturned.
Proof.
  induction n as [|n IH]; intros p Hpc Hsnap; simpl.
  - by rewrite app_nil_r.
  - destruct (poll_resume_streaming p Hpc Hsnap) as (Hout & Hpend & Hpc' & Hsnap').
    destruct (IH _ Hpc' Hsnap') as [-> Hret]. split; [|done].
    rewrite Hout, Hpend, <- app_assoc, <- map_app. do 2 f_equal.
    destruct (poll_pending m p); simpl; [by rewrite take_nil|by rewrite drop_0].
Qed.

End StreamingPoller.

(** X5. Polling without progress: a resume call on a message that is in
    status [streaming] and that no persister writes to never returns and
    never emits a terminal chunk; it emits the words the client is missing,
    one per resumption, and then nothing more. *)
Theorem resume_without_progress_never_returns
    (input m : Message) (r : ref) (s s' : Sys) (sch : list Action) :
  resumeMessage input s = Ok s' ->
  (poll_ref <$> poller s') = Some r ->
  heap s !! r = Some m ->
  status m = streaming ->
  persister s = None ->
  poll_returned (run sch s') = false
  /\ poll_emitted (run sch s')
     = take (polls sch)
         (map (mkChunk (id m) streaming)
            (drop (length (split_words (content input)))
               (split_words (content m)))).
Proof.
  intros Hres Hr Hm Hst Hp.
  destruct (resumeMessage_inv _ _ _ Hres) as (Hside & r' & m' & _ & _ & Hpl).
  rewrite Hpl in Hr. injection Hr as ->.
  set (p := pollMessage r (length (split_words (content input)))) in *.
  assert (persister s' = None /\ heap s' = heap s) as [Hp' Hh].
  { unfold persister_side in Hside. by injection Hside as -> _ _ ->. }
  assert (poller (run sch s') = Some (poll_times (polls sch) m p)) as Hrun.
  { apply run_quiet; [done|done|by rewrite Hh]. }
  destruct (poll_times_streaming m Hst (polls sch) p) as [Hout Hpc]; [done..|].
  unfold poll_returned, poll_emitted. rewrite Hrun, Hout. simpl.
  split; [|by rewrite firstn_map].
  destruct (poll_times (polls sch) m p) as [? [] ? ?]; done.
Qed.

Lemma resume_without_progress_never_returns_witness :
  exists s',
    resumeMessage Cases.quiet_report Cases.quiet = Ok s'
    /\ poll_returned (run (repeat PollNext 5) s') = false
    /\ poll_emitted (run (repeat PollNext 5) s')
       = [mkChunk "u2" streaming "y"; mkChunk "u2" streaming "z"].
Proof.
  eexists. split; [reflexivity|].
  apply (resume_without_progress_never_returns Cases.quiet_report
           (mkMessage "u2" "x y z" user 0%Z streaming) 0 Cases.quiet _
           (repeat PollNext 5)); reflexivity.
Defined.

(** ** Delivery without gaps *)

Lemma poll_target_step s a :
  (poll_ref <$> poller (step s a)) = (poll_ref <$> poller s).
Proof.
  destruct (decide (a = PollNext)) as [->|Hne]; [|by rewrite poller_step_other].
  simpl. unfold poll_next. destruct (poller s) as [p|] eqn:E; [|by rewrite E].
  destruct (heap s !! poll_ref p); [|by rewrite E]. simpl.
  by rewrite poll_ref_resume.
Qed.

Lemma poll_target_run sch s :
  (poll_ref <$> poller (run sch s)) = (poll_ref <$> poller s).
Proof.
  revert s; induction sch as [|a sch IH]; intros s; [done|].
  change (run (a :: sch) s) with (run sch (step s a)).
  by rewrite IH, poll_target_step.
Qed.

Section Contiguous.

Variable start : nat.

Lemma poll_from_contiguous m p W words i :
  poll_log p = seq start (length (poll_log p)) ->
  i = start + length (poll_log p) ->
  words `prefix_of` W ->
  i <= length words ->
  poll_contiguous start W (poll_from m p words i).
Proof.
  intros Hlog Hi Hpre Hle. unfold poll_from.
  destruct (words !! i) as [w|] eqn:E.
  - split; simpl.
    + rewrite length_app. simpl. rewrite Nat.add_1_r, seq_S. by rewrite <- Hlog, Hi.
    + rewrite length_app. simpl. split; [lia|].
      split; [by apply lookup_lt_Some in E|done].
  - apply lookup_ge_None in E.
    destruct (status m); (split; [done|]); simpl; [|done|done].
    split; [lia|]. by apply prefix_length.
Qed.

Lemma poll_resume_contiguous m p :
  poll_contiguous start (split_words (content m)) p ->
  poll_contiguous start (split_words (content m)) (poll_resume m p).
Proof.
  intros [Hlog Hpc]. unfold poll_resume.
  destruct (poll_pc p) as [last|ws i|] eqn:E.
  - destruct Hpc as [Hlast Hle]. by apply poll_from_contiguous.
  - destruct Hpc as (Hi & Hlt & Hpre). apply poll_from_contiguous; [done|done|done|lia].
  - split; [done|]. by rewrite E.
Qed.

Lemma poll_contiguous_grow W W' p :
  W `prefix_of` W' -> poll_contiguous start W p -> poll_contiguous start W' p.
Proof.
  intros Hpre [Hlog Hpc]. split; [done|].
  destruct (poll_pc p) as [last|ws i|]; [| |done].
  - destruct Hpc as [Hlast Hle]. split; [done|].
    apply prefix_length in Hpre. lia.
  - destruct Hpc as (Hi & Hlt & Hws). split; [done|]. split; [done|].
    by transitivity W.
Qed.

Lemma poller_contiguous_step s a :
  poller_contiguous start s -> poller_contiguous start (step s a).
Proof.
  intros (p & m & Hp & Hm & Hok).
  destruct (decide (a = PollNext)) as [->|Hne].
  - exists (poll_resume m p), m. simpl. unfold poll_next. rewrite Hp, Hm. simpl.
    split; [done|]. split; [by rewrite poll_ref_resume|].
    by apply poll_resume_contiguous.
  - destruct (step_words_grow s a _ _ Hm) as (m' & Hm' & Hpre).
    exists p, m'. rewrite poller_step_other by done.
    split; [done|]. split; [done|]. by apply (poll_contiguous_grow _ _ _ Hpre).
Qed.

Lemma poller_contiguous_run sch s :
  poller_contiguous start s -> poller_contiguous start (run sch s).
Proof.
  revert s; induction sch as [|a sch IH]; intros s H; simpl; [done|].
  by apply IH, poller_contiguous_step.
Qed.

Lemma texts_at_contiguous_indices (W : list string) cs : forall a n,
  Forall2 (fun c i => W !! i = Some (text c)) cs (seq a n) ->
  map text cs = take n (drop a W).
Proof.
  induction cs as [|c cs IH]; intros a n H.
  - apply Forall2_nil_inv_l in H. destruct n; [done|discriminate].
  - destruct n as [|n]; simpl in H; [by apply Forall2_nil_inv_r in H|].
    apply Forall2_cons in H as [Hc H].
    rewrite (drop_S _ _ _ Hc). simpl. f_equal. by apply IH.
Qed.

End Contiguous.

(** X6. Delivery without gaps: when the client does not report more words
    than the server holds, a resume call emits, under every interleaving
    with source, persister and relay, the words of the server content at
    the consecutive indices [k], [k + 1], ... starting at the client's word
    count [k], in order and with none left out in between. *)
Theorem resume_delivers_consecutive_words
    (input m : Message) (r : ref) (s : Sys) (sch : list Action) :
  find_message s (id input) = Some r ->
  heap s !! r = Some m ->
  length (split_words (content input)) <= length (split_words (content m)) ->
  exists s' p m',
    resumeMessage input s = Ok s'
    /\ poller (run sch s') = Some p
    /\ heap (run sch s') !! r = Some m'
    /\ poll_log p
       = seq (length (split_words (content input))) (length (poll_log p))
    /\ map text (poll_streamed p)
       = take (length (poll_log p))
           (drop (length (split_words (content input)))
              (split_words (content m'))).
Proof.
  intros Hfind Hm Hk.
  set (k := length (split_words (content input))) in *.
  assert (exists s', resumeMessage input s = Ok s'
                     /\ poller s' = Some (pollMessage r k)
                     /\ heap s' = heap s) as (s' & Hres & Hpl & Hh).
  { unfold resumeMessage. rewrite Hfind. by eexists. }
  exists s'.
  assert (poller_contiguous k s') as Hc.
  { exists (pollMessage r k), m. split; [done|]. split; [by rewrite Hh|].
    split; [done|]. simpl. split; [lia|done]. }
  destruct (poller_contiguous_run k sch s' Hc) as (p & m' & Hp & Hm' & Hlog & _).
  destruct (poller_ok_run sch s' (resumeMessage_poller_ok _ _ _ Hres))
    as (p' & m'' & Hp' & Hm'' & _ & Hlink & _).
  assert (p' = p) as -> by congruence.
  assert (m'' = m') as -> by congruence.
  assert (poll_ref p = r) as Hr.
  { pose proof (poll_target_run sch s') as E. rewrite Hp, Hpl in E.
    by injection E. }
  exists p, m'. rewrite <- Hr. split; [done|]. split; [done|].
  split; [done|]. split; [done|].
  apply texts_at_contiguous_indices. by rewrite <- Hlog.
Qed.

Lemma resume_delivers_consecutive_words_witness :
  exists s' p m',
    resumeMessage Scenario.client_copy
      (run [Produce; Persist; Produce; Persist] Scenario.sent) = Ok s'
    /\ poller (run [PollNext; Produce; Persist; PollNext; PollNext] s') = Some p
    /\ heap (run [PollNext; Produce; Persist; PollNext; PollNext] s') !! 1
       = Some m'
    /\ map text (poll_streamed p)
       = take (length (poll_log p)) (drop 1 (split_words (content m'))).
Proof.
  destruct (resume_delivers_consecutive_words Scenario.client_copy
              (mkMessage "assistant-abc" "a b" assistant 5%Z streaming) 1
              (run [Produce; Persist; Produce; Persist] Scenario.sent)
              [PollNext; Produce; Persist; PollNext; PollNext])
    as (s' & p & m' & Hres & Hp & Hm' & _ & Htexts);
    [reflexivity|reflexivity|simpl; lia|].
  exists s', p, m'. split; [exact Hres|]. split; [exact Hp|].
  split; [exact Hm'|exact Htexts].
Defined.

(** ** The life of an assistant message *)

Section MessageLife.

Lemma append_nil_r (s : string) : s +:+ "" = s.
Proof.
  induction s as [|c s IH]; [done|].
  change (String c (s +:+ "") = String c s). by rewrite IH.
Qed.

Lemma append_assoc (a b c : string) : (a +:+ b) +:+ c = a +:+ (b +:+ c).
Proof.
  induction a as [|x a IH]; [done|].
  change (String x ((a +:+ b) +:+ c) = String x (a +:+ b +:+ c)).
  by rewrite IH.
Qed.

(** The only writes to a message append to its content. *)
Lemma step_content_grow s a r m :
  heap s !! r = Some m ->
  exists m' suffix, heap (step s a) !! r = Some m'
                    /\ content m' = content m +:+ suffix.
Proof.
  intros Hm.
  destruct (decide (persister s = Some r /\ a = Persist)) as [[Hp ->]|Hno].
  - destruct s as [h ms src b1 b2 p rl pl]; simpl in *. subst p.
    unfold persist; simpl. pose proof (lookup_lt_Some _ _ _ Hm) as Hlt.
    destruct b1 as [|ev q]; [exists m, ""; by rewrite append_nil_r|].
    rewrite Hm.
    destruct ev; unfold persist_with; cbn [heap];
      rewrite list_lookup_insert_eq by done.
    + eexists _, _. split; [done|]. unfold append_word; simpl. done.
    + exists (set_status m done), "". by rewrite append_nil_r.
    + exists (set_status m error), "". by rewrite append_nil_r.
  - exists m, "". rewrite append_nil_r. split; [|done].
    destruct (decide (persister s = Some r)) as [Hp|Hp].
    + assert (a <> Persist) as Ha by tauto.
      destruct s as [h ms src b1 b2 p rl pl]; simpl in *. destruct a; simpl.
      * unfold produce; simpl. by destruct src.
      * done.
      * unfold relay_next; simpl. destruct rl as [[mid [] out]|]; try done.
        by destruct b2 as [|[w| |] q].
      * unfold abort; simpl. by destruct rl as [[mid [] out]|].
      * unfold poll_next; simpl. destruct pl as [pp|]; [|done].
        by destruct (h !! poll_ref pp).
    + by rewrite heap_step_other.
Qed.

Lemma run_content_grow sch : forall s r m,
  heap s !! r = Some m ->
  exists m' suffix,
    heap (run sch s) !! r = Some m'
    /\ content m' = content m +:+ suffix
    /\ split_words (content m) `prefix_of` split_words (content m').
Proof.
  induction sch as [|a sch IH]; intros s r m Hm.
  - exists m, "". by rewrite append_nil_r.
  - change (run (a :: sch) s) with (run sch (step s a)).
    destruct (step_content_grow s a r m Hm) as (m1 & suf1 & Hm1 & Hc1).
    destruct (step_words_grow s a r m Hm) as (m1' & Hm1' & Hw1).
    assert (m1' = m1) as -> by congruence.
    destruct (IH _ _ _ Hm1) as (m2 & suf2 & Hm2 & Hc2 & Hw2).
    exists m2, (suf1 +:+ suf2). split; [done|]. split.
    + by rewrite Hc2, Hc1, append_assoc.
    + by transitivity (split_words (content m1)).
Qed.

Lemma run_heap_frozen sch s :
  persister s = None -> heap (run sch s) = heap s /\ persister (run sch s) = None.
Proof.
  revert s; induction sch as [|a sch IH]; intros s Hp; [done|].
  change (run (a :: sch) s) with (run sch (step s a)).
  destruct (step_finished s a Hp) as (Hh & Hp' & _).
  destruct (IH _ Hp') as [-> ->]. by rewrite Hh.
Qed.

End MessageLife.

(** X7. The life of an assistant message under every schedule: its id
    never changes, its content only grows by appended text (so its words
    only grow by appended words), its status leaves [streaming] only for the
    final state of the generation, and from then on the message never
    changes again. *)
Theorem assistant_message_grows_then_freezes
    (stream : Stream) (input : Message) (rnd : string) (now : Z) (s : Sys)
    (sooner later : list Action) :
  let s0 := sendMessage_on stream input rnd now s in
  let final := consumeStream stream (assistant_message rnd now) in
  exists m1 m2 suffix,
    heap (run sooner s0) !! assistant_ref s = Some m1
    /\ heap (run (sooner ++ later) s0) !! assistant_ref s = Some m2
    /\ id m1 = generateId (Some "assistant") rnd
    /\ id m2 = generateId (Some "assistant") rnd
    /\ content m2 = content m1 +:+ suffix
    /\ split_words (content m1) `prefix_of` split_words (content m2)
    /\ (status m1 = streaming \/ m1 = final)
    /\ (status m1 <> streaming -> m2 = m1).
Proof.
  intros s0 final. set (a := assistant_ref s).
  assert (id final = generateId (Some "assistant") rnd) as Hidf.
  { unfold final. destruct stream as [ws e]. by rewrite consumeStream_fresh. }
  assert (failing_course a final s0) as Hf0.
  { split; [apply sendMessage_heading_for|].
    right. split; [done|]. exists (assistant_message rnd now).
    split; [apply sendMessage_lookup_assistant|]. by rewrite Hidf. }
  pose proof (failing_course_run a final sooner s0 Hf0) as Hf1.
  pose proof (failing_course_run a final (sooner ++ later) s0 Hf0) as Hf2.
  destruct (failing_course_lookup a final _ Hf1) as (m1 & Hm1 & Hid1 & Hst1).
  destruct (failing_course_lookup a final _ Hf2) as (m2 & Hm2 & Hid2 & _).
  assert (run (sooner ++ later) s0 = run later (run sooner s0)) as Erun.
  { unfold run. by rewrite fold_left_app. }
  destruct (run_content_grow later _ _ _ Hm1) as (m2' & suffix & Hm2' & Hc & Hw).
  rewrite <- Erun in Hm2'. assert (m2' = m2) as -> by congruence.
  exists m1, m2, suffix. split; [done|]. split; [done|].
  split; [congruence|]. split; [congruence|]. split; [done|].
  split; [done|]. split; [done|].
  intros Hterm. destruct Hf1 as [_ [Hp|[_ (m & Hm & Hst & _)]]].
  - destruct (run_heap_frozen later _ Hp) as [Hh _].
    rewrite Erun, Hh in Hm2. congruence.
  - fold a in Hm1. congruence.
Qed.

(** ** Shape of generated ids *)

Section IdShape.

Lemma length_append (a b : string) :
  String.length (a +:+ b) = String.length a + String.length b.
Proof.
  induction a as [|x a IH]; [done|].
  change (S (String.length (a +:+ b)) = S (String.length a + String.length b)).
  by rewrite IH.
Qed.

Lemma length_substring n m s :
  String.length (String.substring n m s) = Nat.min m (String.length s - n).
Proof.
  revert n m; induction s as [|c s IH]; intros [|n] [|m];
    cbn [String.substring String.length]; rewrite ?IH; lia.
Qed.

Lemma length_zero_empty (s : string) : String.length s = 0 -> s = "".
Proof. by destruct s. Qed.

End IdShape.

(** X8. Shape and length of a generated id: with a non-empty prefix it is
    the prefix, a dash and at most 13 characters, exactly as many as the
    draw has beyond its first two, so a draw rendered in fewer than three
    characters (the draw 0 is rendered as one) gives the bare prefix and
    dash; without a prefix, or with the empty one, there is no dash and the
    id may be empty. *)
Theorem generateId_shape (prefix rnd : string) :
  JS.truthy prefix = true ->
  String.length (generateId (Some prefix) rnd)
  = String.length prefix + 1 + Nat.min 13 (String.length rnd - 2)
  /\ String.length (generateId (Some prefix) rnd) <= String.length prefix + 14
  /\ (String.length rnd <= 2 -> generateId (Some prefix) rnd = prefix +:+ "-")
  /\ generateId None rnd = generateId (Some "") rnd
  /\ String.length (generateId None rnd) = Nat.min 13 (String.length rnd - 2)
  /\ (String.length rnd <= 2 -> generateId None rnd = "").
Proof.
  intros Hp. unfold generateId, JS.substring. rewrite Hp. simpl JS.truthy.
  cbv iota. rewrite !length_append, length_substring. simpl String.length.
  split; [lia|]. split; [lia|]. split.
  - intros Hr. f_equal. f_equal. apply length_zero_empty.
    rewrite length_substring. lia.
  - split; [done|]. split; [done|]. intros Hr. apply length_zero_empty.
    rewrite length_substring. lia.
Qed.

Lemma generateId_shape_witness :
  String.length (generateId (Some "assistant") "0") <= 9 + 14
  /\ generateId (Some "assistant") "0" = "assistant-".
Proof.
  destruct (generateId_shape "assistant" "0" eq_refl) as (_ & Hle & Hshort & _).
  split; [exact Hle|]. apply Hshort. simpl. lia.
Defined.

(** ** The persisted content and the generated response *)

Section Response.

Lemma truthy_append_r (a b : string) : JS.truthy b = true -> JS.truthy (a +:+ b) = true.
Proof. by destruct a, b. Qed.


(** Joining the pieces of a split with the separator gives the string
    back. *)
Lemma concat_split s : String.concat " " (JS.split JS.space s) = s.
Proof.
  induction s as [|c s IH]; [done|]. simpl JS.split.
  pose proof (split_not_nil JS.space s) as Hne.
  destruct (Ascii.eqb c JS.space) eqn:E.
  - apply Ascii.eqb_eq in E. subst c.
    destruct (JS.split JS.space s) as [|p ps]; [done|].
    change (String.concat " " ("" :: p :: ps))
      with (String JS.space (String.concat " " (p :: ps))).
    by rewrite IH.
  - destruct (JS.split JS.space s) as [|p ps]; [done|].
    destruct ps as [|q qs].
    + simpl in *. by rewrite IH.
    + change (String.concat " " (String c p :: q :: qs))
        with (String c (String.concat " " (p :: q :: qs))).
      by rewrite IH.
Qed.

(** Non-empty words appended by the rule of line 72 are joined by single
    spaces. *)
Lemma fold_append_concat ws : forall m,
  ws <> [] -> forallb JS.truthy ws = true ->
  content (fold_left append_word ws m)
  = if JS.truthy (content m)
    then content m +:+ " " +:+ String.concat " " ws
    else String.concat " " ws.
Proof.
  induction ws as [|w ws IH]; intros m Hne Hall; [done|].
  simpl in Hall. apply andb_true_iff in Hall as [Hw Hall].
  cbn [fold_left].
  assert (JS.truthy (content (append_word m w)) = true) as Ht.
  { unfold append_word; simpl. by apply truthy_append_r, truthy_append_r. }
  destruct ws as [|w' ws'].
  - simpl. unfold append_word; simpl. by destruct (content m).
  - rewrite IH by done. rewrite Ht.
    change (String.concat " " (w :: w' :: ws'))
      with (w +:+ " " +:+ String.concat " " (w' :: ws')).
    unfold append_word; simpl content.
    destruct (JS.truthy (content m)) eqn:Em.
    + by rewrite !append_assoc.
    + destruct (content m); [|done]. done.
Qed.

End Response.

(** X9. The persisted content is the generated response verbatim: when a
    response is cut at its spaces into pieces none of which is empty (no
    leading, trailing or doubled space), persisting the pieces on an empty
    message gives back the response, whatever the ending of the stream. *)
Theorem persisted_content_is_response (response : string) (e : Ending) (m : Message) :
  content m = "" ->
  forallb JS.truthy (JS.split JS.space response) = true ->
  content (consumeStream (mkStream (JS.split JS.space response) e) m) = response
  /\ forallb is_chunk (JS.split JS.space response) = true.
Proof.
  intros Hm Hall. split.
  - rewrite content_consumeStream. simpl chunks.
    rewrite fold_append_concat; [|apply split_not_nil|done].
    rewrite Hm. simpl. apply concat_split.
  - pose proof (split_pieces_no_sep JS.space response) as Hsep.
    induction (JS.split JS.space response) as [|p ps IH]; [done|].
    simpl in Hall |- *. apply andb_true_iff in Hall as [Hp Hps].
    apply Forall_cons in Hsep as [Hnp Hsep].
    unfold is_chunk at 1. rewrite Hp, Hnp. simpl. by apply IH.
Qed.

Lemma persisted_content_is_response_witness :
  content (consumeStream (mkStream (JS.split JS.space "a b c") Closed)
             (mkMessage "assistant-1" "" assistant 0%Z streaming))
  = "a b c".
Proof.
  apply (persisted_content_is_response "a b c" Closed
           (mkMessage "assistant-1" "" assistant 0%Z streaming));
    reflexivity.
Defined.

(** * Properties of the client *)

(** ** The query cache *)

Section Cache.

Lemma findIndex_None i l : findIndex i l = None <-> i ∉ map id l.
Proof.
  induction l as [|m l IH]; simpl; [split; [intros _; apply not_elem_of_nil|done]|].
  rewrite not_elem_of_cons. case_bool_decide as E.
  - split; [done|]. intros [Hne _]. by destruct Hne.
  - destruct (findIndex i l) as [n|]; simpl.
    + split; [done|]. intros [_ Hni]. by apply IH in Hni.
    + split; [|done]. intros _. split; [by intros ->|by apply IH].
Qed.

Lemma findIndex_Some i l n :
  findIndex i l = Some n ->
  exists m, l !! n = Some m /\ id m = i
            /\ forall j m', j < n -> l !! j = Some m' -> id m' <> i.
Proof.
  revert n; induction l as [|m l IH]; intros n; simpl; [done|].
  case_bool_decide as E.
  - intros [= <-]. exists m. split; [done|]. split; [done|]. lia.
  - destruct (findIndex i l) as [k|]; simpl; [|done]. intros [= <-].
    destruct (IH k eq_refl) as (m0 & Hm0 & Hid & Hfirst).
    exists m0. split; [done|]. split; [done|].
    intros [|j] m' Hj Hm'; simpl in Hm'; [by injection Hm' as <-|].
    apply (Hfirst j); [lia|done].
Qed.

Lemma findIndex_insert i l n copy :
  id copy = i -> findIndex i l = Some n ->
  findIndex i (<[n := copy]> l) = Some n
  /\ map id (<[n := copy]> l) = map id l.
Proof.
  intros Hc. revert n; induction l as [|m l IH]; intros n; simpl; [done|].
  case_bool_decide as E.
  - intros [= <-]. simpl. rewrite bool_decide_eq_true_2 by done.
    split; [done|]. by rewrite Hc, E.
  - destruct (findIndex i l) as [k|] eqn:Ek; simpl; [|done]. intros [= <-].
    simpl. rewrite bool_decide_eq_false_2 by done.
    destruct (IH k eq_refl) as [-> ->]. done.
Qed.

Lemma findIndex_snoc i l copy :
  id copy = i -> findIndex i l = None ->
  findIndex i (l ++ [copy]) = Some (length l).
Proof.
  intros Hc. induction l as [|m l IH]; simpl.
  - intros _. by rewrite bool_decide_eq_true_2.
  - case_bool_decide as E; [done|].
    destruct (findIndex i l); [done|]. intros _. by rewrite IH.
Qed.

End Cache.

(** X10. The cache update of the [sendMessage] mutation is an upsert by
    id: the copy replaces the first entry with its id or is appended when
    there is none; afterwards looking the id up finds the copy, the ids of
    the cache are the old ones (plus the new one at the end when it was
    missing), entries with other ids keep their places, and doing the
    update a second time changes nothing. *)
Theorem cache_upsert_by_id
    (old : option (list Message)) (copy : Message) :
  let before := default [] old in
  let after := cache_upsert old (id copy) copy in
  (exists n, findIndex (id copy) after = Some n /\ after !! n = Some copy)
  /\ map id after
     = (if decide (id copy ∈ map id before) then map id before
        else map id before ++ [id copy])
  /\ (forall j m, before !! j = Some m -> id m <> id copy -> after !! j = Some m)
  /\ cache_upsert (Some after) (id copy) copy = after.
Proof.
  intros before after. unfold after, cache_upsert. fold before.
  destruct (findIndex (id copy) before) as [n|] eqn:E.
  - destruct (findIndex_Some _ _ _ E) as (m0 & Hm0 & Hid & Hfirst).
    destruct (findIndex_insert _ _ _ copy eq_refl E) as [Hfi Hids].
    pose proof (lookup_lt_Some _ _ _ Hm0) as Hlt.
    split; [exists n; split; [done|by apply list_lookup_insert_eq]|].
    split.
    { rewrite Hids. rewrite decide_True; [done|].
      apply list_elem_of_In, in_map_iff. exists m0. split; [done|].
      apply list_elem_of_In. by eapply list_elem_of_lookup_2. }
    split.
    { intros j m Hj Hne. rewrite list_lookup_insert_ne; [done|].
      intros <-. congruence. }
    simpl. rewrite Hfi. apply list_insert_id. by apply list_lookup_insert_eq.
  - pose proof (proj1 (findIndex_None _ _) E) as Hni.
    pose proof (findIndex_snoc _ _ copy eq_refl E) as Hfi.
    split.
    { exists (length before). split; [done|].
      rewrite lookup_app_r by lia. by rewrite Nat.sub_diag. }
    split; [by rewrite decide_False, map_app|].
    split.
    { intros j m Hj _. by apply lookup_app_l_Some. }
    simpl. rewrite Hfi. apply list_insert_id.
    rewrite lookup_app_r by lia. by rewrite Nat.sub_diag.
Qed.

(** X11. The cache updates of the [resumeMessage] mutation and of the
    error path: replacing by id never changes the length of the cache and
    does nothing when no entry has the id, so chunks of a resumed message
    that is not in the cache are not shown; the error path, which rewrites
    every entry with the id, does the same as replacing the first one
    whenever the ids of the cache are distinct. *)
Theorem cache_replace_by_id
    (old : option (list Message)) (copy : Message) :
  let before := default [] old in
  length (cache_replace old (id copy) copy) = length before
  /\ (id copy ∉ map id before -> cache_replace old (id copy) copy = before)
  /\ (id copy ∉ map id before -> cache_mark old copy = before)
  /\ (NoDup (map id before) ->
      cache_mark old copy = cache_replace old (id copy) copy).
Proof.
  intros before. unfold cache_replace, cache_mark. fold before.
  assert (forall l, id copy ∉ map id l ->
            map (fun m => if bool_decide (id m = id copy) then copy else m) l = l)
    as Hmark.
  { intros l. induction l as [|m l IH]; simpl; [done|].
    rewrite not_elem_of_cons. intros [Hne Hni].
    rewrite bool_decide_eq_false_2 by done. by rewrite IH. }
  split; [destruct (findIndex _ _); [by rewrite length_insert|done]|].
  split.
  { intros Hni. by rewrite (proj2 (findIndex_None _ _) Hni). }
  split; [apply Hmark|].
  assert (forall l, NoDup (map id l) ->
            map (fun m => if bool_decide (id m = id copy) then copy else m) l
            = match findIndex (id copy) l with
              | Some existingIndex => <[existingIndex := copy]> l
              | None => l
              end) as Hfirst; [|apply Hfirst].
  intros l. induction l as [|m l IH]; simpl; [done|].
  rewrite NoDup_cons. intros [Hni Hnd].
  case_bool_decide as E.
  - simpl. f_equal. apply Hmark. by rewrite <- E.
  - rewrite (IH Hnd). by destruct (findIndex (id copy) l).
Qed.

Lemma cache_replace_by_id_witness :
  cache_replace (Some [Scenario.u1]) (id Scenario.client_copy) Scenario.client_copy
  = [Scenario.u1]
  /\ cache_mark (Some [Scenario.u1; Scenario.client_copy]) Scenario.client_copy
     = cache_replace (Some [Scenario.u1; Scenario.client_copy])
         (id Scenario.client_copy) Scenario.client_copy.
Proof.
  split.
  - destruct (cache_replace_by_id (Some [Scenario.u1]) Scenario.client_copy)
      as (_ & Habsent & _).
    apply Habsent. vm_compute. intros H.
    repeat (apply elem_of_cons in H as [H|H]; [discriminate H|]).
    by apply elem_of_nil in H.
  - destruct (cache_replace_by_id (Some [Scenario.u1; Scenario.client_copy])
                Scenario.client_copy) as (_ & _ & _ & Hsame).
    apply Hsame. vm_compute. repeat constructor.
    + intros H. repeat (apply elem_of_cons in H as [H|H]; [discriminate H|]).
      by apply elem_of_nil in H.
    + apply not_elem_of_nil.
Defined.

(** ** What the client shows *)

Section ClientCopy.

(** On a stream that closes, a relay that is never aborted returns with
    all of its output. *)
Lemma relay_finishes ws input rnd now s sch :
  Abort ∉ sch ->
  let stream := mkStream ws Closed in
  let s0 := sendMessage_on stream input rnd now s in
  let mid := generateId (Some "assistant") rnd in
  let n := length (events stream) in
  relay (run (sch ++ repeat Produce n ++ repeat RelayNext n) s0)
  = Some (mkRelay mid Returned
            (map (mkChunk mid streaming) ws ++ [mkChunk mid done ""])).
Proof.
  intros Hno stream s0 mid n.
  set (hd := (map (mkChunk mid streaming) ws ++ [mkChunk mid done ""], Returned)).
  assert (relay_heading s0 = Some hd) as Hhd.
  { unfold s0, sendMessage_on, relay_heading, hd; simpl.
    change (map Value ws ++ [Done]) with (events stream).
    by rewrite convert_events. }
  destruct (relay_drains sch s0 hd n) as [Hstop Hh];
    [apply unfailing_closed|done|done|done|done|].
  pose proof (relay_heading_stopped _ _ Hh Hstop) as E.
  pose proof (relay_tag_run (sch ++ repeat Produce n ++ repeat RelayNext n) s0)
    as Ht.
  unfold relay_tag in Ht.
  destruct (relay (run (sch ++ repeat Produce n ++ repeat RelayNext n) s0))
    as [rl|]; [|done].
  simpl in Ht. injection Ht as Ht. by rewrite Ht in E.
Qed.

(** What a finished message gives a resume call. *)
Lemma finished_resume_output ws k input m r s sch :
  forallb is_chunk ws = true ->
  k <= length ws ->
  content input = joined (take k ws) ->
  find_message s (id input) = Some r ->
  heap s !! r = Some m ->
  content m = joined ws ->
  status m <> streaming ->
  persister s = None ->
  exists s',
    resumeMessage input s = Ok s'
    /\ poll_emitted (run sch s')
       = take (polls sch)
           (map (mkChunk (id input) streaming) (drop k ws)
              ++ [mkChunk (id input) (status m) ""]).
Proof.
  intros Hws Hk Hin Hfind Hm Hcm Hst Hp.
  destruct (find_message_id _ _ _ Hfind) as (m' & _ & Hm' & Hid).
  assert (m' = m) as -> by congruence.
  unfold resumeMessage. rewrite Hfind. eexists. split; [done|].
  set (p := pollMessage r (length (split_words (content input)))).
  set (s' := mkSys _ _ _ _ _ _ _ _).
  destruct (run_finished sch s' p m) as (Hpl & _ & _); try done.
  destruct (poll_times_frozen m Hst (polls sch) p) as [Hout _].
  unfold poll_emitted. rewrite Hpl, Hout. simpl. f_equal.
  unfold poll_remaining, p; simpl.
  rewrite Hin, Hcm, !split_words_joined by (done || by apply forallb_take).
  rewrite length_take, Nat.min_l by done.
  unfold terminal_chunk. by rewrite Hid.
Qed.

Lemma id_client_apply m chunk : id (client_apply m chunk) = messageId chunk.
Proof. unfold client_apply. by destruct (JS.truthy (text chunk)). Qed.

Lemma client_apply_terminal m mid st :
  client_apply m (mkChunk mid st "")
  = mkMessage mid (content m) (role m) (createdAt m) st.
Proof. done. Qed.

(** Chunks with text, applied one after the other, extend the content by
    the rule of line 72. *)
Lemma client_fold_fields mid st ws : forall m,
  forallb JS.truthy ws = true ->
  let m' := fold_left client_apply (map (mkChunk mid st) ws) m in
  content m' = content (fold_left append_word ws m)
  /\ role m' = role m /\ createdAt m' = createdAt m
  /\ (ws <> [] -> id m' = mid /\ status m' = st).
Proof.
  induction ws as [|w ws IH]; intros m Hall; [done|].
  simpl in Hall. apply andb_true_iff in Hall as [Hw Hall].
  cbn [map fold_left].
  set (m1 := client_apply m (mkChunk mid st w)).
  assert (content m1 = content (append_word m w) /\ role m1 = role m
          /\ createdAt m1 = createdAt m /\ id m1 = mid /\ status m1 = st)
    as (Hc1 & Hr1 & Ht1 & Hi1 & Hs1).
  { unfold m1, client_apply. simpl text. by rewrite Hw. }
  destruct (IH m1 Hall) as (Hc & Hr & Ht & Hid). cbv zeta in *.
  split; [rewrite Hc; by apply fold_append_content|].
  split; [congruence|]. split; [congruence|]. intros _.
  destruct ws as [|w' ws']; [done|]. by apply Hid.
Qed.

Lemma fst_send_loop chunks : forall st,
  fst (fold_left client_send_chunk chunks st) = fold_left client_apply chunks (fst st).
Proof. induction chunks as [|c chunks IH]; intros st; [done|]. simpl. by rewrite IH. Qed.

Lemma client_send_chunk_unfold cur l c :
  client_send_chunk (cur, Some l) c
  = (client_apply cur c,
     Some (match findIndex (messageId c) l with
           | Some i => <[i := client_apply cur c]> l
           | None => l ++ [client_apply cur c]
           end)).
Proof. done. Qed.

(** An upsert on top of an upsert of the same id leaves only the second
    copy. *)
Lemma cache_upsert_again c0 mid x y :
  id x = mid -> id y = mid ->
  cache_upsert (Some (cache_upsert (Some c0) mid x)) mid y
  = cache_upsert (Some c0) mid y.
Proof.
  intros Hx Hy. unfold cache_upsert.
  change (default [] (Some c0)) with c0.
  destruct (findIndex mid c0) as [n|] eqn:E.
  - change (default [] (Some (<[n:=x]> c0))) with (<[n:=x]> c0).
    destruct (findIndex_insert mid c0 n x Hx E) as [-> _].
    apply list_insert_insert_eq.
  - change (default [] (Some (c0 ++ [x]))) with (c0 ++ [x]).
    rewrite (findIndex_snoc mid c0 x Hx E).
    rewrite insert_app_r_alt by lia. by rewrite Nat.sub_diag.
Qed.

Lemma cache_upsert_fresh c0 mid x :
  mid ∉ map id c0 -> cache_upsert (Some c0) mid x = c0 ++ [x].
Proof.
  intros Hni. unfold cache_upsert.
  change (default [] (Some c0)) with c0.
  by rewrite (proj2 (findIndex_None mid c0) Hni).
Qed.

(** Once the copy is in the cache, every further chunk of the same
    message replaces it where it stands. *)
Lemma send_loop_upserts mid c0 chunks : forall cur,
  id cur = mid ->
  Forall (fun c => messageId c = mid) chunks ->
  snd (fold_left client_send_chunk chunks
         (cur, Some (cache_upsert (Some c0) mid cur)))
  = Some (cache_upsert (Some c0) mid (fold_left client_apply chunks cur)).
Proof.
  induction chunks as [|c chunks IH]; intros cur Hcur Hall; [done|].
  apply Forall_cons in Hall as [Hc Hall]. cbn [fold_left].
  unfold client_send_chunk at 2. cbn [fst snd]. rewrite Hc.
  rewrite cache_upsert_again by (done || by rewrite id_client_apply).
  apply IH; [by rewrite id_client_apply|done].
Qed.

(** The cache after the loop of the [sendMessage] mutation: one upsert of
    the final copy. *)
Lemma snd_send_loop mid c0 m0 chunks :
  chunks <> [] ->
  Forall (fun c => messageId c = mid) chunks ->
  snd (fold_left client_send_chunk chunks (m0, Some c0))
  = Some (cache_upsert (Some c0) mid (fold_left client_apply chunks m0)).
Proof.
  destruct chunks as [|c chunks]; [done|]. intros _ Hall.
  apply Forall_cons in Hall as [Hc Hall]. cbn [fold_left].
  unfold client_send_chunk at 2. cbn [fst snd]. rewrite Hc.
  apply (send_loop_upserts mid); [by rewrite id_client_apply|done].
Qed.


Lemma joined_fold ws m :
  content m = "" -> content (fold_left append_word ws m) = joined ws.
Proof. intros Hm. unfold joined. by apply fold_append_content. Qed.

Lemma joined_take_drop k ws m :
  content m = joined (take k ws) ->
  content (fold_left append_word (drop k ws) m) = joined ws.
Proof.
  intros Hm. unfold joined at 1. rewrite <- (take_drop k ws) at 2.
  rewrite fold_left_app. by apply fold_append_content.
Qed.

Lemma forallb_chunk_truthy ws :
  forallb is_chunk ws = true -> forallb JS.truthy ws = true.
Proof.
  induction ws as [|w ws IH]; simpl; [done|].
  unfold is_chunk at 1. intros [[-> _]%andb_true_iff Hws]%andb_true_iff.
  by rewrite IH.
Qed.

Lemma forallb_drop {A} (f : A -> bool) k l :
  forallb f l = true -> forallb f (drop k l) = true.
Proof.
  revert k; induction l as [|x l IH]; intros [|k]; simpl; try done.
  intros [_ H]%andb_true_iff. by apply IH.
Qed.

End ClientCopy.

(** X12. A generation watched to its end: when no chunk is empty and the
    call is not aborted, the [sendMessage] mutation ends without rethrowing,
    and its copy of the assistant message carries the id, the content and
    the status [done] of the message the persister ends with.  The cache
    holds what it held and the user message, and the copy in the place of
    the first entry that already carried the assistant id; when none did,
    which is the case of an id that is new to the client, the copy comes
    last, after the user message. *)
Theorem client_shows_persisted_message
    (ws : list string) (input : Message) (rnd : string) (now : Z) (s : Sys)
    (sch : list Action)
    (cache : option (list Message)) (typed rnd' : string) (now1 now2 : Z) :
  let mid := generateId (Some "assistant") rnd in
  let userMessage := client_user_message typed rnd' now1 in
  let pushed := cache_push cache userMessage in
  let stream := mkStream ws Closed in
  let s0 := sendMessage_on stream input rnd now s in
  let n := length (events stream) in
  let received :=
    relay_emitted (run (sch ++ repeat Produce n ++ repeat RelayNext n) s0) in
  let shown := mkMessage mid (joined ws) assistant now2 done in
  forallb JS.truthy ws = true ->
  Abort ∉ sch ->
  client_sendMessage cache typed rnd' now1 now2 received Returned
  = (shown,
     Some (match findIndex mid pushed with
           | Some existingIndex => <[existingIndex := shown]> pushed
           | None => pushed ++ [shown]
           end),
     false)
  /\ (mid ∉ map id pushed ->
      client_sendMessage cache typed rnd' now1 now2 received Returned
      = (shown, Some (pushed ++ [shown]), false))
  /\ consumeStream stream (assistant_message rnd now)
     = mkMessage mid (joined ws) assistant now done.
Proof.
  intros mid userMessage pushed stream s0 n received shown Hws Hno.
  assert (received
          = map (mkChunk mid streaming) ws ++ [mkChunk mid done ""]) as ->.
  { unfold received, relay_emitted, s0, n, stream.
    by rewrite (relay_finishes ws input rnd now s sch Hno). }
  set (m0 := mkMessage "" "" assistant now2 streaming).
  assert (fold_left client_apply
            (map (mkChunk mid streaming) ws ++ [mkChunk mid done ""]) m0
          = shown) as Hshown.
  { rewrite fold_left_app. cbn [fold_left]. rewrite client_apply_terminal.
    destruct (client_fold_fields mid streaming ws m0 Hws) as (Hc & Hr & Ht & _).
    cbv zeta in *. unfold shown. rewrite Hc, Hr, Ht.
    by rewrite joined_fold. }
  assert (client_sendMessage cache typed rnd' now1 now2
            (map (mkChunk mid streaming) ws ++ [mkChunk mid done ""]) Returned
          = (shown, Some (cache_upsert (Some pushed) mid shown), false)) as Hcall.
  { unfold client_sendMessage. fold userMessage pushed m0.
    rewrite fst_send_loop. cbn [fst]. rewrite Hshown.
    rewrite (snd_send_loop mid); [by rewrite Hshown|by destruct ws|].
    apply Forall_app. split; [|by repeat constructor].
    apply Forall_forall. by intros c (w & <- & _)%list_elem_of_In%in_map_iff. }
  split; [exact Hcall|].
  split; [|unfold stream; by rewrite consumeStream_fresh].
  intros Hni. rewrite Hcall. by rewrite cache_upsert_fresh.
Qed.

Lemma client_shows_persisted_message_witness :
  client_sendMessage None "hi" "0.xyz" 1%Z 2%Z
    (relay_emitted
       (run ([Produce; RelayNext; Persist]
             ++ repeat Produce 4 ++ repeat RelayNext 4) Scenario.sent))
    Returned
  = (mkMessage "assistant-abc" "a b c" assistant 2%Z done,
     Some [mkMessage "user-xyz" "hi" user 1%Z done;
           mkMessage "assistant-abc" "a b c" assistant 2%Z done],
     false)
  /\ client_sendMessage
       (Some [mkMessage "assistant-abc" "a" assistant 2%Z streaming]) "hi" "0.xyz"
       1%Z 2%Z
       (relay_emitted
          (run ([Produce; RelayNext; Persist]
                ++ repeat Produce 4 ++ repeat RelayNext 4) Scenario.sent))
       Returned
     = (mkMessage "assistant-abc" "a b c" assistant 2%Z done,
        Some [mkMessage "assistant-abc" "a b c" assistant 2%Z done;
              mkMessage "user-xyz" "hi" user 1%Z done],
        false).
Proof.
  assert (Abort ∉ [Produce; RelayNext; Persist]) as Hno.
  { intros H. repeat (apply elem_of_cons in H as [H|H]; [discriminate H|]).
    by apply elem_of_nil in H. }
  split.
  - destruct (client_shows_persisted_message ["a"; "b"; "c"] Scenario.u1 "0.abc"
                5%Z empty_server [Produce; RelayNext; Persist] None "hi" "0.xyz"
                1%Z 2%Z eq_refl Hno) as (_ & Hfresh & _).
    apply Hfresh. vm_compute. intros H.
    repeat (apply elem_of_cons in H as [H|H]; [discriminate H|]).
    by apply elem_of_nil in H.
  - destruct (client_shows_persisted_message ["a"; "b"; "c"] Scenario.u1 "0.abc"
                5%Z empty_server [Produce; RelayNext; Persist]
                (Some [mkMessage "assistant-abc" "a" assistant 2%Z streaming])
                "hi" "0.xyz" 1%Z 2%Z eq_refl Hno) as (Hcall & _).
    exact Hcall.
Defined.

(** X13. Resume seen from the client: a client that holds the first [k]
    chunks of a message whose generation has finished, and resumes with its
    copy, ends with the id, the full content and the final status of the
    stored message, with no chunk doubled and none missing; role and
    creation time stay those of its copy. *)
Theorem client_resume_completes_copy
    (ws : list string) (k : nat) (copy m : Message) (r : ref) (s : Sys)
    (sch : list Action) (cache : option (list Message)) :
  forallb is_chunk ws = true ->
  k <= length ws ->
  content copy = joined (take k ws) ->
  find_message s (id copy) = Some r ->
  heap s !! r = Some m ->
  content m = joined ws ->
  status m <> streaming ->
  persister s = None ->
  length ws - k < polls sch ->
  exists s',
    resumeMessage copy s = Ok s'
    /\ fst (client_resumeMessage cache copy (poll_emitted (run sch s')))
       = mkMessage (id m) (content m) (role copy) (createdAt copy) (status m).
Proof.
  intros Hws Hk Hcopy Hfind Hm Hcm Hst Hp Hn.
  destruct (finished_resume_output ws k copy m r s sch)
    as (s' & Hres & Hout); try done.
  destruct (find_message_id _ _ _ Hfind) as (m' & _ & Hm' & Hid).
  assert (m' = m) as -> by congruence.
  exists s'. split; [done|]. rewrite Hout, take_ge.
  2:{ rewrite length_app, length_map, length_drop. simpl. lia. }
  unfold client_resumeMessage. rewrite <- Hid.
  assert (forall cs st,
            Forall (fun c => chunk_status c = streaming) cs ->
            forall final,
              fst (client_resume_loop (cs ++ [final]) st)
              = client_apply (fold_left client_apply cs (fst st)) final)
    as Hloop.
  { intros cs. induction cs as [|c cs IH]; intros st Hall final.
    - simpl. by destruct (bool_decide (chunk_status final = done)).
    - apply Forall_cons in Hall as [Hc Hall]. cbn [app client_resume_loop].
      rewrite bool_decide_eq_false_2 by (by rewrite Hc).
      by rewrite IH. }
  rewrite Hloop.
  2:{ apply Forall_forall. by intros c (w & <- & _)%list_elem_of_In%in_map_iff. }
  cbn [fst]. rewrite client_apply_terminal.
  destruct (client_fold_fields (id m) streaming (drop k ws) copy)
    as (Hc & Hr & Ht & _).
  { by apply forallb_chunk_truthy, forallb_drop. }
  cbv zeta in *. rewrite Hc, Hr, Ht. f_equal.
  rewrite Hcm. by apply joined_take_drop.
Qed.

Lemma client_resume_completes_copy_witness :
  exists s',
    resumeMessage Scenario.client_copy Scenario.persisted = Ok s'
    /\ fst (client_resumeMessage None Scenario.client_copy
              (poll_emitted (run [PollNext; PollNext; PollNext] s')))
       = mkMessage "assistant-abc" "a b c" assistant 5%Z done.
Proof.
  apply (client_resume_completes_copy ["a"; "b"; "c"] 1 Scenario.client_copy
           (mkMessage "assistant-abc" "a b c" assistant 5%Z done) 1
           Scenario.persisted [PollNext; PollNext; PollNext] None);
    try reflexivity.
  - simpl. lia.
  - discriminate.
  - vm_compute. lia.
Defined.



(** X15. An interrupted call leaves an accurate report: whatever the
    schedule and wherever the call is aborted, as long as the terminal
    chunk has not arrived the chunks the client has received are the first
    ones of the source, its copy holds them joined by single spaces, and
    the word count [resumeMessage] derives from that copy is the number of
    chunks received. *)
Theorem client_partial_copy_counts_received
    (ws : list string) (e : Ending) (input : Message) (rnd : string) (now : Z)
    (s : Sys) (sch : list Action) (m0 : Message) :
  let mid := generateId (Some "assistant") rnd in
  let s0 := sendMessage_on (mkStream ws e) input rnd now s in
  let received := relay_emitted (run sch s0) in
  let copy := fold_left client_apply received m0 in
  forallb is_chunk ws = true ->
  content m0 = "" ->
  length received <= length ws ->
  received = map (mkChunk mid streaming) (take (length received) ws)
  /\ content copy = joined (take (length received) ws)
  /\ length (split_words (content copy)) = length received.
Proof.
  intros mid s0 received copy Hws Hm0 Hlen.
  set (hd := convertReadableStreamToAsyncIterable (events (mkStream ws e)) mid).
  assert (relay_emitted (run sch s0) `prefix_of` fst hd) as Hpre.
  { apply relay_emitted_run.
    unfold s0, sendMessage_on, relay_heading, hd; simpl.
    by destruct (convertReadableStreamToAsyncIterable _ _). }
  fold received in Hpre.
  assert (received = map (mkChunk mid streaming) (take (length received) ws))
    as Hrec.
  { destruct Hpre as [rest Hrest].
    assert (fst hd = map (mkChunk mid streaming) ws
                       ++ match e with
                          | Closed => [mkChunk mid done ""]
                          | Errored => []
                          end) as Hhd.
    { unfold hd. rewrite convert_events. simpl. destruct e; [done|].
      by rewrite app_nil_r. }
    rewrite Hhd in Hrest.
    assert (take (length received) (received ++ rest) = received) as Ht.
    { by rewrite take_app_length. }
    rewrite <- Hrest in Ht. rewrite take_app_le in Ht by (by rewrite length_map).
    by rewrite <- firstn_map. }
  split; [done|].
  assert (forallb JS.truthy (take (length received) ws) = true) as Htr.
  { by apply forallb_chunk_truthy, forallb_take. }
  destruct (client_fold_fields mid streaming _ m0 Htr) as (Hc & _).
  cbv zeta in Hc. unfold copy. rewrite Hrec at 1 3. rewrite Hc.
  rewrite joined_fold by done. split; [done|].
  rewrite split_words_joined by (by apply forallb_take).
  rewrite length_take. lia.
Qed.

Lemma client_partial_copy_counts_received_witness :
  content (fold_left client_apply
             (relay_emitted (run [Produce; RelayNext; Produce; RelayNext; Abort;
                                  Produce; RelayNext] Scenario.sent))
             (mkMessage "" "" assistant 2%Z streaming))
  = joined (take 2 ["a"; "b"; "c"]).
Proof.
  apply (client_partial_copy_counts_received ["a"; "b"; "c"] Closed Scenario.u1
           "0.abc" 5%Z empty_server
           [Produce; RelayNext; Produce; RelayNext; Abort; Produce; RelayNext]
           (mkMessage "" "" assistant 2%Z streaming)).
  - reflexivity.
  - reflexivity.
  - vm_compute. lia.
Defined.

(** X16. The window in which a resume call loses chunks: a poller that is
    suspended at a [yield] when the generation finishes goes on from its
    snapshot, not from the content; it emits the rest of the snapshot, then
    the terminal chunk, and returns, so words appended to the content after
    the snapshot was taken are not delivered in that call. *)
Theorem poller_finishes_from_snapshot
    (s : Sys) (p : Poller) (m : Message) (words : list string) (i : nat)
    (sch : list Action) :
  poller s = Some p ->
  poll_pc p = AtYield words i ->
  i < length words ->
  heap s !! poll_ref p = Some m ->
  status m <> streaming ->
  persister s = None ->
  length words - i <= polls sch ->
  poll_returned (run sch s) = true
  /\ poll_emitted (run sch s)
     = poll_out p
         ++ map (mkChunk (id m) streaming) (drop (S i) words)
         ++ [mkChunk (id m) (status m) ""]
  /\ length (poll_emitted (run sch s)) = length (poll_out p) + (length words - i).
Proof.
  intros Hp Hpc Hi Hm Hst Hpers Hn.
  destruct (run_finished sch s p m Hpers Hp Hm Hst) as (Hpl & _ & _).
  destruct (poll_times_frozen m Hst (polls sch) p) as [Hout Hleft].
  assert (poll_remaining m p
          = map (mkChunk (id m) streaming) (drop (S i) words)
              ++ [mkChunk (id m) (status m) ""]) as Hrem.
  { unfold poll_remaining. by rewrite Hpc. }
  assert (length (poll_remaining m p) = length words - i) as Hlen.
  { rewrite Hrem, length_app, length_map, length_drop. simpl. lia. }
  rewrite take_ge in Hout by lia. rewrite drop_ge in Hleft by lia.
  apply poll_remaining_nil in Hleft.
  unfold poll_returned, poll_emitted. rewrite Hpl, Hout, Hrem.
  split; [destruct (poll_times _ m p); simpl in *; by rewrite Hleft|].
  split; [done|].
  rewrite length_app, <- Hrem, Hlen. done.
Qed.

Lemma poller_finishes_from_snapshot_witness :
  exists s',
    resumeMessage Scenario.client_copy
      (run [Produce; Produce; Persist; Persist] Scenario.sent) = Ok s'
    /\ poll_emitted
         (run [Produce; Produce; Persist; Persist; PollNext]
            (run [PollNext] s'))
       = [mkChunk "assistant-abc" streaming "b"; mkChunk "assistant-abc" done ""]
    /\ (content <$> heap (run [Produce; Produce; Persist; Persist; PollNext]
                          (run [PollNext] s')) !! 1)
       = Some "a b c".
Proof.
  eexists. split; [reflexivity|]. split; [|reflexivity].
  apply (poller_finishes_from_snapshot
           (run [Produce; Produce; Persist; Persist] (run [PollNext] _))
           (mkPoller 1 (AtYield ["a"; "b"] 1)
              [mkChunk "assistant-abc" streaming "b"] [1])
           (mkMessage "assistant-abc" "a b c" assistant 5%Z done)
           ["a"; "b"] 1 [PollNext]); try reflexivity.
  - simpl. lia.
  - discriminate.
Defined.
